(** * SustainAI Tips frontend: the tip categorizer and the request coordinator

    A shallow embedding of [src/pages/index.tsx]: the heading regular
    expression and its backtracking matcher, the line scan of
    [renderTipCards] over a store of shared arrays, the card rendering and
    the state transitions of [handleSubmit]. *)

From Stdlib Require Import NArith String Ascii.
From stdpp Require Import base option list.

Local Open Scope N_scope.
Local Open Scope list_scope.

(** ** JavaScript strings

    A JavaScript string is a sequence of UTF-16 code units; the regular
    expression (no [u] flag), [startsWith] and property keys all work on
    code units. *)

Abbreviation jsstring := (list N).

(** An ASCII literal of the source as code units. *)
Definition js (s : string) : jsstring :=
  map N_of_ascii (list_ascii_of_string s).

Fixpoint str_eqb (a b : jsstring) : bool :=
  match a, b with
  | [], [] => true
  | x :: a', y :: b' => N.eqb x y && str_eqb a' b'
  | _, _ => false
  end.

(** [String.prototype.startsWith]. *)
Fixpoint startsWith (s p : jsstring) : bool :=
  match p, s with
  | [], _ => true
  | y :: p', x :: s' => N.eqb x y && startsWith s' p'
  | _ :: _, [] => false
  end.

(** [Array.prototype.join]. *)
Fixpoint join (sep : jsstring) (l : list jsstring) : jsstring :=
  match l with
  | [] => []
  | [x] => x
  | x :: l' => x ++ sep ++ join sep l'
  end.

(** A value held by a variable of the scan: a string or [undefined]. *)
Inductive jsval :=
  | Undefined
  | Str (s : jsstring).

(** ToBoolean: the empty string and [undefined] are falsy. *)
Definition truthy (v : jsval) : bool :=
  match v with
  | Str (_ :: _) => true
  | _ => false
  end.

(** ** Regular expressions

    The fragment of ECMAScript patterns the source uses: single code unit
    atoms, greedy and lazy repetition of an atom, an optional group, a
    capturing group and the end-of-input assertion. *)

(** LineTerminator code units: LF, CR, LS, PS. *)
Definition is_line_terminator (c : N) : bool :=
  N.eqb c 10 || N.eqb c 13 || N.eqb c 8232 || N.eqb c 8233.

(** [\s]: WhiteSpace and LineTerminator code units. *)
Definition is_space (c : N) : bool :=
  N.eqb c 9 || N.eqb c 11 || N.eqb c 12 || N.eqb c 32 || N.eqb c 160
  || N.eqb c 5760 || (N.leb 8192 c && N.leb c 8202)
  || N.eqb c 8239 || N.eqb c 8287 || N.eqb c 12288 || N.eqb c 65279
  || is_line_terminator c.

(** [\d]. *)
Definition is_digit (c : N) : bool := N.leb 48 c && N.leb c 57.

Inductive atom :=
  | Lit (c : N)     (* a literal or escaped code unit *)
  | Digit           (* \d *)
  | Space           (* \s *)
  | Dot.            (* .  *)

Definition atom_matches (a : atom) (c : N) : bool :=
  match a with
  | Lit d => N.eqb c d
  | Digit => is_digit c
  | Space => is_space c
  | Dot => negb (is_line_terminator c)
  end.

Inductive regex :=
  | Empty
  | Atom (a : atom)
  | Cat (r1 r2 : regex)
  | Star (greedy : bool) (a : atom)   (* a* and a*? *)
  | Plus (greedy : bool) (a : atom)   (* a+ and a+? *)
  | Opt (r : regex)                   (* (?:r)? *)
  | Group (i : nat) (r : regex)       (* the i-th capturing group *)
  | Eos.                              (* $ without the m flag *)

(** Captures, most recent binding first. *)
Abbreviation captures := (list (nat * jsstring)).

Fixpoint capture (i : nat) (c : captures) : option jsstring :=
  match c with
  | [] => None
  | (j, s) :: c' => if Nat.eqb i j then Some s else capture i c'
  end.

(** The code units consumed between the suffix [s] and its suffix [s']. *)
Definition consumed (s s' : jsstring) : jsstring :=
  take (length s - length s') s.

(** Repetition of an atom in front of the continuation [k]: the greedy form
    takes one more code unit before it tries [k], the lazy form tries [k]
    first. *)
Fixpoint repeat_atom {R} (greedy : bool) (a : atom) (s : jsstring)
    (k : jsstring -> option R) : option R :=
  match s with
  | x :: s' =>
      if atom_matches a x then
        if greedy then
          match repeat_atom greedy a s' k with
          | Some r => Some r
          | None => k s
          end
        else
          match k s with
          | Some r => Some r
          | None => repeat_atom greedy a s' k
          end
      else k s
  | [] => k s
  end.

(** The backtracking matcher, in continuation-passing style as in the
    ECMAScript specification: [run_regex r s c k] matches [r] at the front of
    [s] and hands the rest of the input and the captures to [k]; when [k]
    fails the matcher tries its next alternative. An iteration of the
    optional group that consumes nothing is rejected, as RepeatMatcher
    does. *)
Fixpoint run_regex {R} (r : regex) (s : jsstring) (c : captures)
    (k : jsstring -> captures -> option R) : option R :=
  match r with
  | Empty => k s c
  | Atom a =>
      match s with
      | x :: s' => if atom_matches a x then k s' c else None
      | [] => None
      end
  | Cat r1 r2 => run_regex r1 s c (fun s' c' => run_regex r2 s' c' k)
  | Star g a => repeat_atom g a s (fun s' => k s' c)
  | Plus g a =>
      match s with
      | x :: s' =>
          if atom_matches a x then repeat_atom g a s' (fun s'' => k s'' c)
          else None
      | [] => None
      end
  | Opt r1 =>
      match run_regex r1 s c (fun s' c' =>
              if Nat.eqb (length s') (length s) then None else k s' c') with
      | Some res => Some res
      | None => k s c
      end
  | Group i r1 =>
      run_regex r1 s c (fun s' c' => k s' ((i, consumed s s') :: c'))
  | Eos =>
      match s with
      | [] => k s c
      | _ :: _ => None
      end
  end.

(** A match anchored at the front of [s]; group 0 is the matched text. *)
Definition match_here (r : regex) (s : jsstring) : option captures :=
  run_regex r s [] (fun s' c => Some ((0%nat, consumed s s') :: c)).

(** [RegExp.prototype.exec] without the [g] and [y] flags: the first start
    position, from the left, at which the pattern matches. *)
Fixpoint regex_exec (r : regex) (s : jsstring) : option captures :=
  match match_here r s with
  | Some c => Some c
  | None =>
      match s with
      | [] => None
      | _ :: s' => regex_exec r s'
      end
  end.

(** A literal run of code units. *)
Fixpoint lits (s : jsstring) : regex :=
  match s with
  | [] => Empty
  | x :: s' => Cat (Atom (Lit x)) (lits s')
  end.

Declare Scope regex_scope.
Delimit Scope regex_scope with re.
Infix "⋅" := Cat (at level 41, right associativity) : regex_scope.

(** [/## \d+\.\s*(.*?)(?:\s*\(.*\))?$/] *)
Definition category_regex : regex :=
  (lits (js "## ") ⋅ Plus true Digit ⋅ Atom (Lit 46) ⋅ Star true Space
   ⋅ Group 1 (Star false Dot)
   ⋅ Opt (Star true Space ⋅ Atom (Lit 40) ⋅ Star true Dot ⋅ Atom (Lit 41))
   ⋅ Eos)%re.

(** [tip.match(/.../)]: [null] or the array of the match. *)
Definition str_match (tip : jsstring) : option captures :=
  regex_exec category_regex tip.

(** [categoryMatch[1]]. *)
Definition match_index (i : nat) (m : captures) : jsval :=
  match capture i m with
  | Some s => Str s
  | None => Undefined
  end.

(** ** The line scan of [renderTipCards]

    Arrays are objects: [currentTips] and a property of [categories] may
    denote the same array, and [push] mutates it in place. The store maps a
    reference to the array it denotes. *)

Abbreviation ref := nat.
Abbreviation store := (list (list jsstring)).

(** An object with string keys, in property creation order. *)
Abbreviation object V := (list (jsstring * V)).

Definition obj_keys {V} (o : object V) : list jsstring := map fst o.

(** [o[k] = v]: an own property keeps its place, a new one goes last. *)
Fixpoint obj_set {V} (k : jsstring) (v : V) (o : object V) : object V :=
  match o with
  | [] => [(k, v)]
  | (k', v') :: o' =>
      if str_eqb k k' then (k, v) :: o' else (k', v') :: obj_set k v o'
  end.

Fixpoint obj_get {V} (k : jsstring) (o : object V) : option V :=
  match o with
  | [] => None
  | (k', v) :: o' => if str_eqb k k' then Some v else obj_get k o'
  end.

(** [keys.includes(v)]: no key is [undefined]. *)
Definition includes (keys : list jsstring) (v : jsval) : bool :=
  match v with
  | Str s => existsb (str_eqb s) keys
  | Undefined => false
  end.

(** ToPropertyKey. *)
Definition to_key (v : jsval) : jsstring :=
  match v with
  | Str s => s
  | Undefined => js "undefined"
  end.

(** The array literal [[]]: a fresh reference. *)
Definition alloc_array (h : store) : store * ref := (h ++ [[]], length h).

(** [a.push(x)] on the array that [r] denotes. *)
Definition array_push (r : ref) (x : jsstring) (h : store) : store :=
  alter (fun a => a ++ [x]) r h.

Definition deref (h : store) (r : ref) : list jsstring :=
  default [] (h !! r).

Record scan_state := {
  heap : store;
  categories : object ref;
  currentCategory : jsval;
  currentTips : ref;
}.

Definition QuickWins : jsstring := js "Quick Wins".
Definition SustainableLiving : jsstring := js "Sustainable Living".
Definition TransportationMobility : jsstring := js "Transportation & Mobility".
Definition CommunitySocialImpact : jsstring := js "Community & Social Impact".
Definition EnvironmentalProtection : jsstring := js "Environmental Protection".

(** The five keys of the [categories] literal, in source order. *)
Definition category_names : list jsstring :=
  [QuickWins; SustainableLiving; TransportationMobility;
   CommunitySocialImpact; EnvironmentalProtection].

(** The state before [forEach]: one empty array per category, then the
    empty array of [currentTips]. *)
Definition scan_init : scan_state :=
  {| heap := [[]; []; []; []; []; []];
     categories := [(QuickWins, 0); (SustainableLiving, 1);
                    (TransportationMobility, 2); (CommunitySocialImpact, 3);
                    (EnvironmentalProtection, 4)]%nat;
     currentCategory := Str [];
     currentTips := 5%nat |}.

Definition heading_marker : jsstring := js "## ".

(** The body of the [forEach] callback. *)
Definition scan_step (st : scan_state) (tip : jsstring) : scan_state :=
  if startsWith tip heading_marker then
    match str_match tip with
    | Some categoryMatch =>
        let '(h, r) := alloc_array (heap st) in
        {| heap := h;
           categories := categories st;
           currentCategory := match_index 1 categoryMatch;
           currentTips := r |}
    | None => st
    end
  else if truthy (currentCategory st)
          && includes (obj_keys (categories st)) (currentCategory st) then
    {| heap := array_push (currentTips st) tip (heap st);
       categories :=
         obj_set (to_key (currentCategory st)) (currentTips st) (categories st);
       currentCategory := currentCategory st;
       currentTips := currentTips st |}
  else st.

Definition scan (tips : list jsstring) : scan_state :=
  fold_left scan_step tips scan_init.

(** [Object.entries(categories)] with every array read from the store. *)
Definition obj_entries (st : scan_state) : object (list jsstring) :=
  map (fun kv => (fst kv, deref (heap st) (snd kv))) (categories st).

(** The buckets after the scan. *)
Definition categorize (tips : list jsstring) : object (list jsstring) :=
  obj_entries (scan tips).

(** The bucket of one category. *)
Definition bucket (c : jsstring) (tips : list jsstring) : list jsstring :=
  default [] (obj_get c (categorize tips)).

(** ** Rendering *)

Definition icons : object jsstring :=
  [(QuickWins, [9889]);
   (SustainableLiving, [55356; 57151]);
   (TransportationMobility, [55357; 57010]);
   (CommunitySocialImpact, [55358; 56605]);
   (EnvironmentalProtection, [55356; 57101])].

(** [icons[category] || default], on the own properties of [icons]. *)
Definition getCategoryIcon (category : jsstring) : jsstring :=
  match obj_get category icons with
  | Some (x :: i) => x :: i
  | _ => [55356; 57137]
  end.

(** What a card shows: its key and title, the icon, the text handed to the
    markdown renderer, and the footer count with its noun. *)
Record card := {
  card_key : jsstring;
  card_icon : jsstring;
  card_title : jsstring;
  card_markdown : jsstring;
  card_count : nat;
  card_noun : jsstring;
}.

(** The callback of [map]: [false] ([None]) for an empty bucket. *)
Definition render_entry (e : jsstring * list jsstring) : option card :=
  let '(category, categoryTips) := e in
  if (0 <? length categoryTips)%nat then
    Some {| card_key := category;
            card_icon := getCategoryIcon category;
            card_title := category;
            card_markdown := join (js (String "010" (String "010" EmptyString)))
                                  categoryTips;
            card_count := length categoryTips;
            card_noun := if Nat.eqb (length categoryTips) 1
                         then js "tip" else js "tips" |}
  else None.

(** The children of the row: one element per category, [false] included. *)
Definition renderTipCards (tips : list jsstring) : list (option card) :=
  map render_entry (categorize tips).

(** The cards on the page: [false] children render nothing. *)
Definition rendered_cards (tips : list jsstring) : list card :=
  omap id (renderTipCards tips).

(** ** Vocabulary of the statements *)

(** A line that starts with the heading marker and matches the pattern. *)
Definition is_heading (tip : jsstring) : bool :=
  startsWith tip heading_marker && bool_decide (is_Some (str_match tip)).

(** The value a heading line stores in [currentCategory]. *)
Definition heading_name (tip : jsstring) : option jsval :=
  if startsWith tip heading_marker
  then match_index 1 <$> str_match tip
  else None.

(** A line that goes to the second branch of the callback. *)
Definition is_body (tip : jsstring) : bool :=
  negb (startsWith tip heading_marker).

(** The guard of the second branch on the current category. *)
Definition recognized (v : jsval) : bool :=
  truthy v && includes category_names v.

(** The body lines that follow a heading up to the next heading. *)
Fixpoint body_after (post : list jsstring) : list jsstring :=
  match post with
  | [] => []
  | tip :: post' =>
      if is_heading tip then []
      else if is_body tip then tip :: body_after post'
      else body_after post'
  end.

(** ** The scan by value

    The same callback with every array held by value; [scan_sim] below
    relates it to the scan over the store. *)

Record pure_state := {
  p_categories : object (list jsstring);
  p_current : jsval;
  p_tips : list jsstring;
}.

Definition pure_init : pure_state :=
  {| p_categories := map (fun k => (k, [])) category_names;
     p_current := Str [];
     p_tips := [] |}.

Definition pure_step (st : pure_state) (tip : jsstring) : pure_state :=
  if startsWith tip heading_marker then
    match str_match tip with
    | Some categoryMatch =>
        {| p_categories := p_categories st;
           p_current := match_index 1 categoryMatch;
           p_tips := [] |}
    | None => st
    end
  else if truthy (p_current st)
          && includes (obj_keys (p_categories st)) (p_current st) then
    {| p_categories :=
         obj_set (to_key (p_current st)) (p_tips st ++ [tip]) (p_categories st);
       p_current := p_current st;
       p_tips := p_tips st ++ [tip] |}
  else st.

Definition pure_scan (tips : list jsstring) : pure_state :=
  fold_left pure_step tips pure_init.

(** ** The request coordinator *)

(** What the [tips] state holds. It is declared [string[]], but
    [setTips(response.data.tips)] stores what the response carries, and the
    response is typed [any]. A value that comes from a response body holds
    no function, so the two things the page does with [tips], reading
    [tips.length > 0] and calling [tips.forEach] with a callback that calls
    [tip.startsWith], tell these cases apart and no others. *)
Inductive tips_value :=
  | StringArray (l : list jsstring)  (* an array of strings *)
  | Nullish                          (* [undefined] or [null] *)
  | NotArray (length_positive : bool)
      (* any other value that is not an array, with what
         [tips.length > 0] gives on it *)
  | MixedArray.
      (* an array with an element that is not a string *)

(** [response.data]: [null] or [undefined], or a value on which reading
    [.tips] gives [data_tips] ([undefined] when it has no such property). *)
Inductive response_body :=
  | NullBody
  | Body (data_tips : tips_value).

(** The state of the component. *)
Record page_state := {
  location : jsstring;
  habits : jsstring;
  tips : tips_value;
  loading : bool;
  error : option jsstring;
}.

(** What the transport gives back for the one request. *)
Inductive http_result :=
  | NetworkError
  | Response (status : Z) (data : response_body).

(** The value a statement throws: what a rejected request throws, or the
    TypeError of a property read on [null] or [undefined] and of a call of
    what is not a function. *)
Inductive failure :=
  | NetworkFailure
  | BadStatus (status : Z)
  | TypeError.

Inductive effect :=
  | PreventDefault
  | Post (url : jsstring) (payload_location payload_habits : jsstring)
  | ConsoleError (err : failure).

(** Statements of the handler: the transport result is read, the page state
    and the trace of effects are threaded, a statement may throw. *)
Inductive completion (A : Type) :=
  | Normal (a : A)
  | Throw (err : failure).
Arguments Normal {A} a.
Arguments Throw {A} err.

Definition handler (A : Type) : Type :=
  http_result -> page_state -> list effect ->
  completion A * page_state * list effect.

#[global] Instance handler_ret : MRet handler :=
  fun A a _ st tr => (Normal a, st, tr).

#[global] Instance handler_bind : MBind handler :=
  fun A B f m net st tr =>
    match m net st tr with
    | (Normal a, st', tr') => f a net st' tr'
    | (Throw e, st', tr') => (Throw e, st', tr')
    end.

Definition emit (e : effect) : handler unit :=
  fun _ st tr => (Normal tt, st, tr ++ [e]).

Definition setTips (t : tips_value) : handler unit :=
  fun _ st tr =>
    (Normal tt,
     {| location := location st; habits := habits st; tips := t;
        loading := loading st; error := error st |}, tr).

Definition setLoading (b : bool) : handler unit :=
  fun _ st tr =>
    (Normal tt,
     {| location := location st; habits := habits st; tips := tips st;
        loading := b; error := error st |}, tr).

Definition setError (e : option jsstring) : handler unit :=
  fun _ st tr =>
    (Normal tt,
     {| location := location st; habits := habits st; tips := tips st;
        loading := loading st; error := e |}, tr).

(** [try { body } catch (err) { on_throw } finally { at_last }]. *)
Definition try_catch_finally (body : handler unit)
    (on_throw : failure -> handler unit) (at_last : handler unit)
    : handler unit :=
  fun net st tr =>
    match body net st tr with
    | (Normal _, st', tr') => at_last net st' tr'
    | (Throw e, st', tr') =>
        match on_throw e net st' tr' with
        | (Normal _, st'', tr'') => at_last net st'' tr''
        | (Throw e', st'', tr'') =>
            match at_last net st'' tr'' with
            | (Normal _, st3, tr3) => (Throw e', st3, tr3)
            | thrown => thrown
            end
        end
    end.

(** [await axios.post(url, payload)]: the promise is rejected on a network
    error and, with the default [validateStatus] of axios, on a status
    outside 200..299; otherwise it gives the response, whatever its body. *)
Definition axios_post (url loc hab : jsstring) : handler response_body :=
  fun net st tr =>
    let tr' := tr ++ [Post url loc hab] in
    match net with
    | NetworkError => (Throw NetworkFailure, st, tr')
    | Response status data =>
        if ((200 <=? status) && (status <? 300))%Z
        then (Normal data, st, tr')
        else (Throw (BadStatus status), st, tr')
    end.

(** [response.data.tips], read unchecked: a TypeError on a body that is
    [null] or [undefined]. *)
Definition response_data_tips (data : response_body) : handler tips_value :=
  fun _ st tr =>
    match data with
    | NullBody => (Throw TypeError, st, tr)
    | Body data_tips => (Normal data_tips, st, tr)
    end.

Definition tips_url : jsstring := js "http://localhost:5000/api/tips".

Definition error_message : jsstring :=
  js "Failed to generate tips. Please try again.".

(** [handleSubmit]; [location] and [habits] are those of the render the
    handler closes over. *)
Definition handleSubmit (shown : page_state) : handler unit :=
  emit PreventDefault ;;
  setLoading true ;;
  setError None ;;
  setTips (StringArray []) ;;
  try_catch_finally
    (response ← axios_post tips_url (location shown) (habits shown);
     data_tips ← response_data_tips response;
     setTips data_tips)
    (fun err =>
       setError (Some error_message) ;;
       emit (ConsoleError err))
    (setLoading false).

(** One submission from the page state [st]. *)
Definition submit (net : http_result) (st : page_state)
    : page_state * list effect :=
  let '(_, st', tr) := handleSubmit st net st [] in (st', tr).

(** The request fails: the call throws or the response is not a success. *)
Definition request_fails (net : http_result) : bool :=
  match net with
  | NetworkError => true
  | Response status _ => negb ((200 <=? status) && (status <? 300))%Z
  end.

(** The [try] block throws: the request fails, or [response.data] is
    [null] or [undefined] when [.tips] is read. *)
Definition try_throws (net : http_result) : bool :=
  match net with
  | NetworkError => true
  | Response status data =>
      negb ((200 <=? status) && (status <? 300))%Z
      || match data with NullBody => true | Body _ => false end
  end.

(** [disabled={loading}] on the submit button. *)
Definition submit_disabled (st : page_state) : bool := loading st.

(** [{error && <Alert>...}]: the banner shows a non-empty message. *)
Definition banner (st : page_state) : option jsstring :=
  match error st with
  | Some (x :: m) => Some (x :: m)
  | _ => None
  end.

Definition is_post (e : effect) : bool :=
  match e with
  | Post _ _ _ => true
  | _ => false
  end.

(** The requests a trace issues. *)
Definition posts (tr : list effect) : list effect := List.filter is_post tr.

(** ** Vocabulary of the matcher lemmas *)

(** The input left after a greedy run stops the atom. *)
Definition stops (a : atom) (rest : jsstring) : Prop :=
  match rest with
  | [] => True
  | y :: _ => atom_matches a y = false
  end.

(** The part of the pattern after the capturing group:
    [(?:\s*\(.*\))?$]. *)
Definition note_regex : regex :=
  (Opt (Star true Space ⋅ Atom (Lit 40) ⋅ Star true Dot ⋅ Atom (Lit 41))
   ⋅ Eos)%re.

(** The input [b] holds, after its leading white space, a code unit that is
    neither white space nor an opening parenthesis. *)
Fixpoint blocks_note (b : jsstring) : bool :=
  match b with
  | [] => false
  | y :: b' => if is_space y then blocks_note b' else negb (N.eqb y 40)
  end.

(** Every nonempty suffix of [n] blocks the note, and no code unit of [n]
    is a line terminator: the lazy group cannot stop inside [n]. *)
Fixpoint solid_name (n : jsstring) : bool :=
  match n with
  | [] => true
  | x :: n' =>
      negb (is_line_terminator x) && blocks_note (x :: n') && solid_name n'
  end.

(** A parenthetical note at the end of a heading line: white space, then
    the parentheses around code units of one line. *)
Definition parenthetical_note (note : jsstring) : Prop :=
  exists ws content,
    Forall (fun x => is_space x = true) ws
    /\ Forall (fun x => is_line_terminator x = false) content
    /\ note = ws ++ js "(" ++ content ++ js ")".

(** The scan over the store [h] and the scan by value [p] agree: same
    buckets, same current category, same accumulator; the only category
    whose array [currentTips] may denote is the current one. *)
Record sim (h : scan_state) (p : pure_state) : Prop := {
  sim_entries : obj_entries h = p_categories p;
  sim_current : currentCategory h = p_current p;
  sim_tips : heap h !! currentTips h = Some (p_tips p);
  sim_keys : NoDup (obj_keys (categories h));
  sim_bound : forall k r, (k, r) ∈ categories h -> (r < length (heap h))%nat;
  sim_alias : forall k r,
    (k, r) ∈ categories h -> r = currentTips h -> currentCategory h = Str k;
}.

(** ** The page *)

(** [onChange] of the location input: [setLocation(e.target.value)]. *)
Definition onChange_location (value : jsstring) (st : page_state)
    : page_state :=
  {| location := value; habits := habits st; tips := tips st;
     loading := loading st; error := error st |}.

(** [onChange] of the habits input: [setHabits(e.target.value)]. *)
Definition onChange_habits (value : jsstring) (st : page_state)
    : page_state :=
  {| location := location st; habits := value; tips := tips st;
     loading := loading st; error := error st |}.

(** The statements of [handleSubmit] that run before the request is
    awaited. *)
Definition before_await : handler unit :=
  emit PreventDefault ;;
  setLoading true ;;
  setError None ;;
  setTips (StringArray []).

(** The [try] statement of [handleSubmit]. *)
Definition request_and_settle (shown : page_state) : handler unit :=
  try_catch_finally
    (response ← axios_post tips_url (location shown) (habits shown);
     data_tips ← response_data_tips response;
     setTips data_tips)
    (fun err =>
       setError (Some error_message) ;;
       emit (ConsoleError err))
    (setLoading false).

(** What the component returns for a page state, as far as the state
    decides it: the values of the two controlled inputs, the submit button,
    the alert and the tips section with the children of its row. *)
Record view := {
  location_value : jsstring;
  habits_value : jsstring;
  button_disabled : bool;
  button_spinner : bool;
  button_label : jsstring;
  alert : option jsstring;
  tips_section : option (list (option card));
}.

(** [{tips.length > 0 && (<section>...{renderTipCards()}</section>)}]: the
    section, or the TypeError of [tips.length] on [undefined] or [null], of
    [tips.forEach] on what is not an array, or of [tip.startsWith] on what is
    not a string. *)
Definition render_tips_section (t : tips_value)
    : completion (option (list (option card))) :=
  match t with
  | StringArray l =>
      Normal (if (0 <? length l)%nat then Some (renderTipCards l) else None)
  | Nullish => Throw TypeError
  | NotArray length_positive =>
      if length_positive then Throw TypeError else Normal None
  | MixedArray => Throw TypeError
  end.

(** The render of the component: a view, or what the render throws. *)
Definition Home (st : page_state) : completion view :=
  match render_tips_section (tips st) with
  | Normal section =>
      Normal {| location_value := location st;
                habits_value := habits st;
                button_disabled := loading st;
                button_spinner := loading st;
                button_label := if loading st then js "Generating Tips..."
                                else js "Get Personalized Tips";
                alert := banner st;
                tips_section := section |}
  | Throw err => Throw err
  end.

(** * Properties *)

(** ** Strings and objects *)

Lemma str_eqb_eq (a b : jsstring) : str_eqb a b = true <-> a = b.
Proof.
  revert b; induction a as [|x a IH]; intros [|y b]; simpl; try easy.
  rewrite andb_true_iff, N.eqb_eq, IH. split.
  - intros [-> ->]; reflexivity.
  - intros [= -> ->]; auto.
Qed.

Lemma str_eqb_refl (a : jsstring) : str_eqb a a = true.
Proof. apply str_eqb_eq; reflexivity. Qed.

Lemma str_eqb_neq (a b : jsstring) : str_eqb a b = false <-> a <> b.
Proof.
  rewrite <- str_eqb_eq. destruct (str_eqb a b); split; congruence.
Qed.

Lemma includes_elem_of (keys : list jsstring) (s : jsstring) :
  includes keys (Str s) = true <-> s ∈ keys.
Proof.
  simpl. rewrite existsb_exists. split.
  - intros (k & Hin & Heq). apply str_eqb_eq in Heq as ->.
    apply list_elem_of_In, Hin.
  - intros Hin. exists s.
    split; [apply list_elem_of_In, Hin|apply str_eqb_refl].
Qed.

Section Objects.
Context {V : Type}.
Implicit Types (o : object V) (k : jsstring) (v : V).

Lemma obj_keys_set_present k v o :
  k ∈ obj_keys o -> obj_keys (obj_set k v o) = obj_keys o.
Proof.
  unfold obj_keys. induction o as [|[k' v'] o IH]; simpl; intros Hin.
  - inversion Hin.
  - destruct (str_eqb k k') eqn:E.
    + apply str_eqb_eq in E as ->. reflexivity.
    + simpl. f_equal. apply IH.
      apply elem_of_cons in Hin as [->|Hin]; [|exact Hin].
      rewrite str_eqb_refl in E; discriminate.
Qed.

Lemma obj_get_set_eq k v o : obj_get k (obj_set k v o) = Some v.
Proof.
  induction o as [|[k' v'] o IH]; simpl.
  - rewrite str_eqb_refl; reflexivity.
  - destruct (str_eqb k k') eqn:E; simpl.
    + rewrite str_eqb_refl; reflexivity.
    + rewrite E; exact IH.
Qed.

Lemma obj_get_set_ne k k' v o :
  k <> k' -> obj_get k' (obj_set k v o) = obj_get k' o.
Proof.
  intros Hne. induction o as [|[k0 v0] o IH]; simpl.
  - apply not_eq_sym, str_eqb_neq in Hne. rewrite Hne; reflexivity.
  - destruct (str_eqb k k0) eqn:E; simpl.
    + apply str_eqb_eq in E as <-.
      apply not_eq_sym, str_eqb_neq in Hne. rewrite Hne; reflexivity.
    + rewrite IH; reflexivity.
Qed.

Lemma obj_get_Some_key k v o : obj_get k o = Some v -> (k, v) ∈ o.
Proof.
  induction o as [|[k' v'] o IH]; simpl; [discriminate|].
  destruct (str_eqb k k') eqn:E.
  - apply str_eqb_eq in E as ->. intros [= ->]. left.
  - intros H. right. apply IH, H.
Qed.

Lemma obj_get_is_Some k o : k ∈ obj_keys o -> is_Some (obj_get k o).
Proof.
  unfold obj_keys. induction o as [|[k' v'] o IH]; simpl; intros Hin.
  - inversion Hin.
  - destruct (str_eqb k k') eqn:E; [eexists; reflexivity|].
    apply IH. apply elem_of_cons in Hin as [->|Hin]; [|exact Hin].
    rewrite str_eqb_refl in E; discriminate.
Qed.
End Objects.

(** ** The request coordinator *)

(** C4: a submission whose request fails, by a network error or by a
    response outside 200..299, ends with the generic error message set and
    shown, the result list empty whatever it held before, the loading flag
    false and the submit control enabled; the final page state does not
    depend on the kind of failure, and the trace holds exactly one request. *)
Theorem C4_failed_request_sets_error (st : page_state) (net : http_result) :
  request_fails net = true ->
  fst (submit net st)
    = {| location := location st; habits := habits st;
         tips := StringArray [];
         loading := false; error := Some error_message |}
  /\ banner (fst (submit net st)) = Some error_message
  /\ submit_disabled (fst (submit net st)) = false
  /\ posts (snd (submit net st)) = [Post tips_url (location st) (habits st)].
Proof.
  intros Hfail. destruct net as [|status data]; simpl in Hfail.
  - repeat split.
  - unfold submit, handleSubmit, mbind, handler_bind, try_catch_finally,
      axios_post, emit, setLoading, setError, setTips; simpl.
    destruct ((200 <=? status) && (status <? 300))%Z; [discriminate|].
    repeat split.
Qed.

Lemma C4_failed_request_witness :
  let st := {| location := js "Nairobi"; habits := js "I drive to work";
               tips := StringArray
                         [js "## 1. Quick Wins"; js "Turn off lights"];
               loading := false; error := None |} in
  let net := Response 500 (Body (StringArray [])) in
  fst (submit net st)
    = {| location := location st; habits := habits st;
         tips := StringArray [];
         loading := false; error := Some error_message |}
  /\ banner (fst (submit net st)) = Some error_message
  /\ submit_disabled (fst (submit net st)) = false
  /\ posts (snd (submit net st))
     = [Post tips_url (location st) (habits st)].
Proof.
  intros st net. apply (C4_failed_request_sets_error st net).
  reflexivity.
Defined.

(** ** The scenario of the specification *)

(** C5: on the four lines of the scenario the categorizer renders exactly
    two cards, "Quick Wins" with the single line "Turn off lights" and
    "Sustainable Living" with the single line "Compost food waste". *)
Theorem C5_scenario_two_cards :
  let input := [js "## 1. Quick Wins"; js "Turn off lights";
                js "## 2. Sustainable Living"; js "Compost food waste"] in
  categorize input
    = [(QuickWins, [js "Turn off lights"]);
       (SustainableLiving, [js "Compost food waste"]);
       (TransportationMobility, []);
       (CommunitySocialImpact, []);
       (EnvironmentalProtection, [])]
  /\ rendered_cards input
    = [ {| card_key := QuickWins; card_icon := [9889];
           card_title := QuickWins;
           card_markdown := js "Turn off lights";
           card_count := 1; card_noun := js "tip" |};
        {| card_key := SustainableLiving; card_icon := [55356; 57151];
           card_title := SustainableLiving;
           card_markdown := js "Compost food waste";
           card_count := 1; card_noun := js "tip" |} ].
Proof. split; vm_compute; reflexivity. Qed.

(** ** The matcher *)

Lemma consumed_app (a b : jsstring) : consumed (a ++ b) b = a.
Proof.
  unfold consumed. rewrite length_app.
  replace (length a + length b - length b)%nat with (length a) by lia.
  apply take_app_length.
Qed.

Lemma consumed_all (s : jsstring) : consumed s [] = s.
Proof.
  unfold consumed. simpl. rewrite Nat.sub_0_r. apply firstn_all.
Qed.

Section Repetition.
Context {R : Type}.
Implicit Types (a : atom) (k : jsstring -> option R).

(** A greedy run takes every code unit of the class when the
    continuation accepts the rest. *)
Lemma repeat_greedy_max a xs rest k r :
  Forall (fun x => atom_matches a x = true) xs ->
  stops a rest ->
  k rest = Some r ->
  repeat_atom true a (xs ++ rest) k = Some r.
Proof.
  intros Hxs Hstop Hk. induction Hxs as [|x xs Hx _ IH]; simpl.
  - destruct rest as [|y rest]; simpl; [exact Hk|].
    simpl in Hstop. rewrite Hstop. exact Hk.
  - rewrite Hx, IH. reflexivity.
Qed.

(** A greedy run that reaches the end of the input gives back its last
    code unit when the continuation needs it. *)
Lemma repeat_greedy_backoff a xs y k r :
  Forall (fun x => atom_matches a x = true) xs ->
  k [] = None ->
  k [y] = Some r ->
  repeat_atom true a (xs ++ [y]) k = Some r.
Proof.
  intros Hxs Hnil Hy. induction Hxs as [|x xs Hx _ IH]; simpl.
  - destruct (atom_matches a y); [rewrite Hnil|]; exact Hy.
  - rewrite Hx, IH. reflexivity.
Qed.

(** A lazy run moves on while the continuation rejects the input. *)
Lemma repeat_lazy_skip a x s k :
  atom_matches a x = true ->
  k (x :: s) = None ->
  repeat_atom false a (x :: s) k = repeat_atom false a s k.
Proof. intros Hx Hk. simpl. rewrite Hx, Hk. reflexivity. Qed.

(** A lazy run stops at the first input the continuation accepts. *)
Lemma repeat_lazy_stop a s k r :
  k s = Some r -> repeat_atom false a s k = Some r.
Proof.
  intros Hk. destruct s as [|x s]; simpl; [exact Hk|].
  destruct (atom_matches a x); rewrite Hk; reflexivity.
Qed.
End Repetition.

Section NoteTail.
Context {R : Type}.
Implicit Types (k : jsstring -> captures -> option R) (c : captures).

Lemma space_not_paren x : is_space x = true -> N.eqb x 40 = false.
Proof.
  intros Hx. destruct (N.eqb x 40) eqn:E; [|reflexivity].
  apply N.eqb_eq in E as ->. discriminate.
Qed.

Lemma greedy_space_blocked b rest (kk : jsstring -> option R) :
  blocks_note b = true ->
  (forall x s, N.eqb x 40 = false -> kk (x :: s) = None) ->
  repeat_atom true Space (b ++ rest) kk = None.
Proof.
  intros Hb Hkk. induction b as [|y b IH]; simpl in *; [discriminate|].
  destruct (is_space y) eqn:Hy.
  - rewrite (IH Hb). apply Hkk, space_not_paren, Hy.
  - apply Hkk. destruct (N.eqb y 40); [discriminate|reflexivity].
Qed.

(** The tail of the pattern rejects an input that blocks the note. *)
Lemma note_regex_blocked b rest c k :
  blocks_note b = true ->
  run_regex note_regex (b ++ rest) c k = None.
Proof.
  intros Hb. unfold note_regex. simpl.
  rewrite greedy_space_blocked; [| exact Hb |].
  - destruct b; [discriminate|reflexivity].
  - intros x s Hx. rewrite Hx. reflexivity.
Qed.

(** The tail of the pattern accepts the end of the input. *)
Lemma note_regex_end c k : run_regex note_regex [] c k = k [] c.
Proof. reflexivity. Qed.

(** The tail of the pattern accepts a parenthetical note up to the end of
    the input. *)
Lemma note_regex_note ws content c k r :
  Forall (fun x => is_space x = true) ws ->
  Forall (fun x => is_line_terminator x = false) content ->
  k [] c = Some r ->
  run_regex note_regex (ws ++ 40 :: content ++ [41]) c k = Some r.
Proof.
  intros Hws Hcontent Hk. unfold note_regex. simpl.
  erewrite repeat_greedy_max; [reflexivity | exact Hws | reflexivity |].
  simpl. erewrite repeat_greedy_backoff; [reflexivity | | reflexivity |].
  - eapply Forall_impl; [exact Hcontent|]. simpl. intros x ->. reflexivity.
  - simpl. rewrite Hk. destruct ws; reflexivity.
Qed.
End NoteTail.

(** The lazy group takes a whole solid name when the continuation rejects
    every input that blocks the note. *)
Lemma lazy_capture {R} n rest (kk : jsstring -> option R) r :
  solid_name n = true ->
  (forall b, blocks_note b = true -> kk (b ++ rest) = None) ->
  kk rest = Some r ->
  repeat_atom false Dot (n ++ rest) kk = Some r.
Proof.
  intros Hn Hfail Hk. induction n as [|x n IH]; simpl app.
  - apply repeat_lazy_stop, Hk.
  - simpl in Hn. apply andb_true_iff in Hn as [Hn Hn'].
    apply andb_true_iff in Hn as [Hx Hb].
    rewrite repeat_lazy_skip; [apply IH, Hn' | exact Hx |].
    apply (Hfail (x :: n)), Hb.
Qed.

(** The pattern, run at the front of a heading line, captures the name and
    hands what follows it to the tail of the pattern. *)
Lemma category_regex_run {R} ds ws n sfx c
    (k : jsstring -> captures -> option R) r :
  ds <> [] ->
  Forall (fun x => is_digit x = true) ds ->
  Forall (fun x => is_space x = true) ws ->
  solid_name n = true -> stops Space n -> n <> [] ->
  run_regex note_regex sfx ((1%nat, n) :: c) k = Some r ->
  run_regex category_regex (heading_marker ++ ds ++ 46 :: ws ++ n ++ sfx) c k
  = Some r.
Proof.
  intros Hne Hds Hws Hn Hhead Hn0 Htail.
  destruct ds as [|d ds]; [congruence|]. inversion Hds as [|? ? Hd Hds']; subst.
  unfold category_regex. simpl. rewrite Hd.
  apply repeat_greedy_max; [exact Hds' | reflexivity |]. simpl.
  apply repeat_greedy_max; [exact Hws | |].
  { destruct n; [congruence|exact Hhead]. }
  apply lazy_capture; [exact Hn | |].
  - intros b Hb. apply (note_regex_blocked b sfx _ k Hb).
  - cbv beta. rewrite consumed_app. exact Htail.
Qed.

(** ** The scan over the store and the scan by value

    The only category whose array [currentTips] may denote is the current
    one, so a [push] changes no other bucket. *)

Lemma obj_keys_entries h : obj_keys (obj_entries h) = obj_keys (categories h).
Proof.
  unfold obj_keys, obj_entries. rewrite map_map. reflexivity.
Qed.

Lemma deref_push_eq (h : store) r x a :
  h !! r = Some a -> deref (array_push r x h) r = a ++ [x].
Proof.
  intros Hr. unfold deref, array_push.
  rewrite list_lookup_alter_eq, Hr. reflexivity.
Qed.

Lemma deref_push_ne (h : store) r r' x :
  r <> r' -> deref (array_push r x h) r' = deref h r'.
Proof.
  intros Hne. unfold deref, array_push.
  rewrite list_lookup_alter_ne by exact Hne. reflexivity.
Qed.

Lemma deref_alloc (h : store) r :
  (r < length h)%nat -> deref (h ++ [[]]) r = deref h r.
Proof.
  intros Hr. unfold deref. rewrite lookup_app_l by exact Hr. reflexivity.
Qed.

Lemma entries_push (h : store) (cats : object ref) c r x a :
  h !! r = Some a ->
  NoDup (obj_keys cats) ->
  (forall k r', (k, r') ∈ cats -> r' = r -> k = c) ->
  map (fun kv => (fst kv, deref (array_push r x h) (snd kv))) (obj_set c r cats)
  = obj_set c (a ++ [x]) (map (fun kv => (fst kv, deref h (snd kv))) cats).
Proof.
  intros Hr Hnd Hal. induction cats as [|[k' r'] cats IH]; simpl.
  - rewrite (deref_push_eq _ _ _ _ Hr). reflexivity.
  - simpl in Hnd. apply NoDup_cons in Hnd as [Hk' Hnd].
    destruct (str_eqb c k') eqn:E; simpl.
    + apply str_eqb_eq in E as <-.
      rewrite (deref_push_eq _ _ _ _ Hr). f_equal.
      apply map_ext_in. intros [k2 r2] Hin. simpl. f_equal.
      apply deref_push_ne. intros <-.
      apply list_elem_of_In in Hin.
      assert (k2 = c) as -> by (eapply Hal; [right; exact Hin|reflexivity]).
      apply Hk'. unfold obj_keys. apply list_elem_of_fmap. exists (c, r). auto.
    + f_equal.
      * f_equal. apply deref_push_ne. intros <-.
        apply str_eqb_neq in E. apply E. symmetry.
        eapply Hal; [left|reflexivity].
      * apply IH; [exact Hnd|]. intros k r2 Hin. apply Hal. right. exact Hin.
Qed.

Lemma elem_of_obj_set {V} (k : jsstring) (v : V) (o : object V) kv :
  kv ∈ obj_set k v o -> kv = (k, v) \/ kv ∈ o.
Proof.
  induction o as [|[k0 v0] o IH]; simpl.
  - intros H. apply list_elem_of_singleton in H. left. exact H.
  - destruct (str_eqb k k0) eqn:E; intros H.
    + apply elem_of_cons in H as [H|H]; [left; exact H|right; right; exact H].
    + apply elem_of_cons in H as [->|H]; [right; left|].
      destruct (IH H) as [H'|H']; [left; exact H'|right; right; exact H'].
Qed.

Lemma recognized_Str v keys :
  truthy v && includes keys v = true ->
  exists c, v = Str c /\ c <> [] /\ c ∈ keys.
Proof.
  intros H. apply andb_true_iff in H as [Ht Hi].
  destruct v as [|c]; [discriminate|]. exists c. split; [reflexivity|].
  split; [destruct c; [discriminate|congruence]|].
  apply includes_elem_of, Hi.
Qed.

Lemma sim_init : sim scan_init pure_init.
Proof.
  split; try reflexivity.
  - apply (bool_decide_unpack _). vm_compute. reflexivity.
  - intros k r Hin. simpl in *.
    repeat (apply elem_of_cons in Hin as [[= -> ->]|Hin]; [lia|]).
    inversion Hin.
  - intros k r Hin ->. simpl in *.
    repeat (apply elem_of_cons in Hin as [Heq|Hin]; [inversion Heq|]).
    inversion Hin.
Qed.

Lemma sim_step h p tip :
  sim h p -> sim (scan_step h tip) (pure_step p tip).
Proof.
  intros [He Hc Ht Hk Hb Ha]. unfold scan_step, pure_step.
  destruct (startsWith tip heading_marker).
  - destruct (str_match tip) as [m|]; [|split; assumption].
    split; simpl.
    + unfold obj_entries; simpl. rewrite <- He. unfold obj_entries.
      apply map_ext_in. intros [k r] Hin. simpl. f_equal.
      apply deref_alloc. apply (Hb k), list_elem_of_In, Hin.
    + reflexivity.
    + rewrite lookup_app_r by lia. rewrite Nat.sub_diag. reflexivity.
    + exact Hk.
    + intros k r Hin. rewrite length_app. simpl.
      specialize (Hb k r Hin). lia.
    + intros k r Hin ->. specialize (Hb _ _ Hin). lia.
  - rewrite <- Hc, <- He, obj_keys_entries.
    destruct (truthy (currentCategory h)
              && includes (obj_keys (categories h)) (currentCategory h)) eqn:G;
      [|split; assumption].
    destruct (recognized_Str _ _ G) as (c & Hcur & Hc0 & Hin).
    rewrite Hcur in *. simpl to_key.
    split; simpl.
    + unfold obj_entries; simpl. apply entries_push; [exact Ht|exact Hk|].
      intros k r Hkr ->. specialize (Ha _ _ Hkr eq_refl). congruence.
    + reflexivity.
    + unfold array_push. rewrite list_lookup_alter_eq, Ht. reflexivity.
    + rewrite obj_keys_set_present; [exact Hk|exact Hin].
    + intros k r Hkr. unfold array_push. rewrite length_alter.
      destruct (elem_of_obj_set _ _ _ _ Hkr) as [[= -> ->]|Hold].
      * apply lookup_lt_Some in Ht. exact Ht.
      * apply (Hb _ _ Hold).
    + intros k r Hkr ->.
      destruct (elem_of_obj_set _ _ _ _ Hkr) as [[= ->]|Hold].
      * reflexivity.
      * apply (Ha _ _ Hold eq_refl).
Qed.

Lemma sim_fold tips h p :
  sim h p -> sim (fold_left scan_step tips h) (fold_left pure_step tips p).
Proof.
  revert h p. induction tips as [|tip tips IH]; intros h p Hs; simpl.
  - exact Hs.
  - apply IH, sim_step, Hs.
Qed.

Lemma scan_sim tips : sim (scan tips) (pure_scan tips).
Proof. apply sim_fold, sim_init. Qed.

Lemma categorize_pure tips : categorize tips = p_categories (pure_scan tips).
Proof. apply (sim_entries _ _ (scan_sim tips)). Qed.

Lemma current_pure tips :
  currentCategory (scan tips) = p_current (pure_scan tips).
Proof. apply (sim_current _ _ (scan_sim tips)). Qed.

(** ** The scan by value, line by line *)

Lemma heading_name_Some tip v :
  heading_name tip = Some v <->
  startsWith tip heading_marker = true
  /\ exists m, str_match tip = Some m /\ v = match_index 1 m.
Proof.
  unfold heading_name. destruct (startsWith tip heading_marker).
  - destruct (str_match tip) as [m|]; simpl; split.
    + intros [= <-]. eauto.
    + intros [_ (m' & [= <-] & ->)]. reflexivity.
    + discriminate.
    + intros [_ (m' & [=] & _)].
  - split; [discriminate|]. intros [[=] _].
Qed.

Lemma is_heading_name tip :
  is_heading tip = true <-> exists v, heading_name tip = Some v.
Proof.
  unfold is_heading, heading_name.
  destruct (startsWith tip heading_marker); simpl.
  - destruct (str_match tip) as [m|]; simpl; split; eauto.
    + discriminate.
    + intros [v [=]].
  - split; [discriminate|]. intros [v [=]].
Qed.

Lemma not_heading_name tip :
  is_heading tip = false <-> heading_name tip = None.
Proof.
  destruct (heading_name tip) as [v|] eqn:E.
  - assert (is_heading tip = true) as -> by (apply is_heading_name; eauto).
    split; discriminate.
  - split; [reflexivity|]. intros _.
    destruct (is_heading tip) eqn:H; [|reflexivity].
    apply is_heading_name in H as [v Hv]. congruence.
Qed.

(** A heading line stores its name and a fresh accumulator. *)
Lemma pure_step_heading st tip v :
  heading_name tip = Some v ->
  pure_step st tip
  = {| p_categories := p_categories st; p_current := v; p_tips := [] |}.
Proof.
  intros H. apply heading_name_Some in H as (Hs & m & Hm & ->).
  unfold pure_step. rewrite Hs, Hm. reflexivity.
Qed.

(** A line with the marker that does not match changes nothing. *)
Lemma pure_step_marker st tip :
  is_body tip = false -> is_heading tip = false -> pure_step st tip = st.
Proof.
  unfold is_body, is_heading, pure_step. intros Hb Hh.
  destruct (startsWith tip heading_marker); [|discriminate]. simpl in Hh.
  destruct (str_match tip); [|reflexivity].
  apply bool_decide_eq_false in Hh. destruct Hh. eauto.
Qed.

(** A body line under a recognized category is pushed and assigned. *)
Lemma pure_step_body st tip c :
  is_body tip = true ->
  p_current st = Str c -> c <> [] -> c ∈ obj_keys (p_categories st) ->
  pure_step st tip
  = {| p_categories := obj_set c (p_tips st ++ [tip]) (p_categories st);
       p_current := Str c;
       p_tips := p_tips st ++ [tip] |}.
Proof.
  unfold is_body, pure_step. intros Hb Hc Hne Hin.
  destruct (startsWith tip heading_marker); [discriminate|].
  rewrite Hc. apply includes_elem_of in Hin. rewrite Hin.
  destruct c; [congruence|]. reflexivity.
Qed.

(** A body line under no recognized category changes nothing. *)
Lemma pure_step_dropped st tip :
  is_body tip = true ->
  truthy (p_current st) && includes (obj_keys (p_categories st)) (p_current st)
    = false ->
  pure_step st tip = st.
Proof.
  unfold is_body, pure_step. intros Hb Hg.
  destruct (startsWith tip heading_marker); [discriminate|].
  rewrite Hg. reflexivity.
Qed.

Lemma pure_step_keys st tip :
  obj_keys (p_categories (pure_step st tip)) = obj_keys (p_categories st).
Proof.
  unfold pure_step. destruct (startsWith tip heading_marker).
  - destruct (str_match tip); reflexivity.
  - destruct (truthy (p_current st) && _) eqn:G; [|reflexivity].
    destruct (recognized_Str _ _ G) as (c & -> & _ & Hin). simpl.
    apply obj_keys_set_present, Hin.
Qed.

Lemma pure_fold_keys l st :
  obj_keys (p_categories (fold_left pure_step l st))
  = obj_keys (p_categories st).
Proof.
  revert st. induction l as [|tip l IH]; intros st; simpl; [reflexivity|].
  rewrite IH. apply pure_step_keys.
Qed.

Lemma pure_scan_keys tips :
  obj_keys (p_categories (pure_scan tips)) = category_names.
Proof. unfold pure_scan. rewrite pure_fold_keys. reflexivity. Qed.

Lemma pure_scan_app a b :
  pure_scan (a ++ b) = fold_left pure_step b (pure_scan a).
Proof. apply fold_left_app. Qed.

Lemma obj_set_set {V} (k : jsstring) (v1 v2 : V) (o : object V) :
  obj_set k v2 (obj_set k v1 o) = obj_set k v2 o.
Proof.
  induction o as [|[k' v'] o IH]; simpl.
  - rewrite str_eqb_refl. reflexivity.
  - destruct (str_eqb k k') eqn:E; simpl.
    + rewrite str_eqb_refl. reflexivity.
    + rewrite E, IH. reflexivity.
Qed.

(** The state after a run of lines without a heading, under a recognized
    category: the body lines are appended to the accumulator, which is
    assigned to the category as soon as one line is pushed. *)
Lemma pure_fold_segment seg cats c ct :
  c <> [] -> c ∈ obj_keys cats ->
  Forall (fun t => is_heading t = false) seg ->
  fold_left pure_step seg
    {| p_categories := cats; p_current := Str c; p_tips := ct |}
  = {| p_categories :=
         match body_after seg with
         | [] => cats
         | _ :: _ => obj_set c (ct ++ body_after seg) cats
         end;
       p_current := Str c;
       p_tips := ct ++ body_after seg |}.
Proof.
  intros Hne Hin Hseg. revert cats ct Hin.
  induction Hseg as [|tip seg Hh _ IH]; intros cats ct Hin; simpl.
  - rewrite app_nil_r. reflexivity.
  - rewrite Hh. destruct (is_body tip) eqn:Hb.
    + rewrite (pure_step_body
                 {| p_categories := cats; p_current := Str c; p_tips := ct |}
                 tip c Hb eq_refl Hne Hin). simpl.
      rewrite IH by (rewrite obj_keys_set_present; assumption).
      rewrite <- app_assoc. simpl.
      destruct (body_after seg); [|rewrite obj_set_set]; reflexivity.
    + rewrite (pure_step_marker _ tip Hb Hh). apply IH, Hin.
Qed.

(** Under no recognized category a run of lines without a heading changes
    nothing. *)
Lemma pure_fold_dropped seg st :
  truthy (p_current st) && includes (obj_keys (p_categories st)) (p_current st)
    = false ->
  Forall (fun t => is_heading t = false) seg ->
  fold_left pure_step seg st = st.
Proof.
  intros Hg Hseg. induction Hseg as [|tip seg Hh _ IH]; simpl; [reflexivity|].
  destruct (is_body tip) eqn:Hb.
  - rewrite (pure_step_dropped _ _ Hb Hg). exact IH.
  - rewrite (pure_step_marker _ _ Hb Hh). exact IH.
Qed.

Lemma last_heading_split (l : list jsstring) :
  Forall (fun t => is_heading t = false) l
  \/ exists l1 h l2, l = l1 ++ h :: l2 /\ is_heading h = true
       /\ Forall (fun t => is_heading t = false) l2.
Proof.
  induction l as [|tip l IH]; [left; constructor|].
  destruct IH as [Hall|(l1 & h & l2 & -> & Hh & Hl2)].
  - destruct (is_heading tip) eqn:E.
    + right. exists [], tip, l. auto.
    + left. constructor; assumption.
  - right. exists (tip :: l1), h, l2. auto.
Qed.

Lemma first_heading_split (l : list jsstring) :
  exists seg rest, l = seg ++ rest
    /\ Forall (fun t => is_heading t = false) seg
    /\ body_after l = body_after seg
    /\ (rest = [] \/ exists h rest', rest = h :: rest' /\ is_heading h = true).
Proof.
  induction l as [|tip l (seg & rest & -> & Hseg & Hb & Hrest)].
  - exists [], []. repeat split; auto.
  - destruct (is_heading tip) eqn:E.
    + exists [], (tip :: seg ++ rest). simpl. rewrite E.
      repeat split; eauto.
    + exists (tip :: seg), rest. simpl. rewrite E, Hb.
      repeat split; auto.
Qed.

Lemma category_name_nonempty c : c ∈ category_names -> c <> [].
Proof.
  intros Hin ->. unfold category_names in Hin.
  repeat (apply elem_of_cons in Hin as [Heq|Hin]; [discriminate Heq|]).
  inversion Hin.
Qed.

Lemma recognized_iff v :
  recognized v = true <-> exists c, v = Str c /\ c ∈ category_names.
Proof.
  unfold recognized. split.
  - intros H. destruct (recognized_Str _ _ H) as (c & -> & _ & Hin). eauto.
  - intros (c & -> & Hin). apply andb_true_iff. split.
    + pose proof (category_name_nonempty c Hin).
      destruct c; [congruence|reflexivity].
    + apply includes_elem_of, Hin.
Qed.

(** Without any heading the scan stays in its initial state. *)
Lemma pure_scan_no_heading pre :
  Forall (fun t => is_heading t = false) pre -> pure_scan pre = pure_init.
Proof. intros H. apply pure_fold_dropped; [reflexivity|exact H]. Qed.

(** The state after the last heading of the input, when that heading names
    a category. *)
Lemma pure_scan_last_recognized pre1 h pre2 c :
  heading_name h = Some (Str c) -> c ∈ category_names ->
  Forall (fun t => is_heading t = false) pre2 ->
  pure_scan (pre1 ++ h :: pre2)
  = {| p_categories :=
         match body_after pre2 with
         | [] => p_categories (pure_scan pre1)
         | _ :: _ => obj_set c (body_after pre2) (p_categories (pure_scan pre1))
         end;
       p_current := Str c;
       p_tips := body_after pre2 |}.
Proof.
  intros Hh Hc Hpre2. rewrite pure_scan_app. simpl.
  rewrite (pure_step_heading _ _ _ Hh).
  rewrite pure_fold_segment;
    [reflexivity | apply category_name_nonempty, Hc | | exact Hpre2].
  rewrite pure_scan_keys. exact Hc.
Qed.

(** The state after the last heading of the input, when that heading names
    no category. *)
Lemma pure_scan_last_unrecognized pre1 h pre2 v :
  heading_name h = Some v -> recognized v = false ->
  Forall (fun t => is_heading t = false) pre2 ->
  pure_scan (pre1 ++ h :: pre2)
  = {| p_categories := p_categories (pure_scan pre1);
       p_current := v; p_tips := [] |}.
Proof.
  intros Hh Hv Hpre2. rewrite pure_scan_app. simpl.
  rewrite (pure_step_heading _ _ _ Hh).
  apply pure_fold_dropped; [|exact Hpre2]. simpl.
  rewrite pure_scan_keys. exact Hv.
Qed.

(** While another category is current and no heading names [c], the bucket
    of [c] does not change. *)
Lemma pure_fold_frozen c l st :
  Forall (fun t => heading_name t <> Some (Str c)) l ->
  p_current st <> Str c ->
  obj_get c (p_categories (fold_left pure_step l st))
  = obj_get c (p_categories st).
Proof.
  intros Hl. revert st. induction Hl as [|tip l Ht _ IH]; intros st Hcur; simpl.
  - reflexivity.
  - destruct (heading_name tip) as [v|] eqn:Hv.
    + rewrite (pure_step_heading _ _ _ Hv). rewrite IH; [reflexivity|].
      simpl. congruence.
    + apply not_heading_name in Hv. destruct (is_body tip) eqn:Hb.
      * destruct (truthy (p_current st)
                  && includes (obj_keys (p_categories st)) (p_current st))
          eqn:G.
        -- destruct (recognized_Str _ _ G) as (c' & Hc' & Hne & Hin).
           rewrite (pure_step_body _ _ c' Hb Hc' Hne Hin).
           rewrite IH by (simpl; congruence). simpl.
           apply obj_get_set_ne. congruence.
        -- rewrite (pure_step_dropped _ _ Hb G). apply IH, Hcur.
      * rewrite (pure_step_marker _ _ Hb Hv). apply IH, Hcur.
Qed.

(** The bucket of [c] after the last heading that names [c]. *)
Lemma pure_bucket_after_last pre h post c :
  heading_name h = Some (Str c) -> c ∈ category_names ->
  Forall (fun t => heading_name t <> Some (Str c)) post ->
  obj_get c (p_categories (pure_scan (pre ++ h :: post)))
  = match body_after post with
    | [] => obj_get c (p_categories (pure_scan pre))
    | x :: b => Some (x :: b)
    end.
Proof.
  intros Hh Hc Hpost.
  destruct (first_heading_split post) as (seg & rest & -> & Hseg & -> & Hrest).
  replace (pre ++ h :: seg ++ rest) with ((pre ++ h :: seg) ++ rest)
    by (rewrite <- app_assoc; reflexivity).
  rewrite pure_scan_app, (pure_scan_last_recognized _ _ _ _ Hh Hc Hseg).
  apply Forall_app in Hpost as [_ Hrest'].
  assert (Hget :
    obj_get c (match body_after seg with
               | [] => p_categories (pure_scan pre)
               | _ :: _ =>
                   obj_set c (body_after seg) (p_categories (pure_scan pre))
               end)
    = match body_after seg with
      | [] => obj_get c (p_categories (pure_scan pre))
      | x :: b => Some (x :: b)
      end).
  { destruct (body_after seg); [reflexivity|apply obj_get_set_eq]. }
  destruct Hrest as [->|(h' & rest' & -> & Hh')]; simpl; [exact Hget|].
  apply is_heading_name in Hh' as [v' Hv'].
  rewrite (pure_step_heading _ _ _ Hv').
  inversion Hrest' as [|? ? Hne Hrest'']; subst.
  rewrite pure_fold_frozen; [exact Hget|exact Hrest''|simpl; congruence].
Qed.

(** ** Buckets *)

Lemma bucket_pure c tips :
  bucket c tips = default [] (obj_get c (p_categories (pure_scan tips))).
Proof. unfold bucket. rewrite categorize_pure. reflexivity. Qed.

Lemma scan_keys tips : obj_keys (categories (scan tips)) = category_names.
Proof.
  rewrite <- obj_keys_entries.
  change (obj_entries (scan tips)) with (categorize tips).
  rewrite categorize_pure. apply pure_scan_keys.
Qed.

Lemma scan_app a b : scan (a ++ b) = fold_left scan_step b (scan a).
Proof. apply fold_left_app. Qed.

Lemma scan_snoc pre tip : scan (pre ++ [tip]) = scan_step (scan pre) tip.
Proof. apply scan_app. Qed.

Lemma pure_scan_snoc pre tip :
  pure_scan (pre ++ [tip]) = pure_step (pure_scan pre) tip.
Proof. apply pure_scan_app. Qed.

(** The current category is recognized only after a heading that names it,
    with no other heading since. *)
Lemma current_origin pre :
  recognized (currentCategory (scan pre)) = true ->
  exists c pre1 h pre2,
    currentCategory (scan pre) = Str c /\ c ∈ category_names
    /\ pre = pre1 ++ h :: pre2 /\ heading_name h = Some (Str c)
    /\ Forall (fun t => is_heading t = false) pre2
    /\ p_tips (pure_scan pre) = body_after pre2.
Proof.
  rewrite current_pure.
  destruct (last_heading_split pre) as [Hno|(l1 & h & l2 & -> & Hh & Hl2)].
  - rewrite (pure_scan_no_heading _ Hno). discriminate.
  - apply is_heading_name in Hh as [v Hv].
    destruct (recognized v) eqn:Hr.
    + apply recognized_iff in Hr as (c & -> & Hc).
      rewrite (pure_scan_last_recognized _ _ _ _ Hv Hc Hl2). simpl.
      intros _. exists c, l1, h, l2. repeat split; auto.
    + rewrite (pure_scan_last_unrecognized _ _ _ _ Hv Hr Hl2). simpl.
      congruence.
Qed.

(** A body line under no recognized category leaves the whole state as it
    is. *)
Lemma scan_step_dropped pre tip :
  is_body tip = true ->
  recognized (currentCategory (scan pre)) = false ->
  scan_step (scan pre) tip = scan pre.
Proof.
  unfold is_body, scan_step, recognized. intros Hb Hr.
  destruct (startsWith tip heading_marker); [discriminate|].
  rewrite scan_keys, Hr. reflexivity.
Qed.

Lemma scan_step_changes pre tip :
  is_body tip = true ->
  scan_step (scan pre) tip <> scan pre ->
  recognized (currentCategory (scan pre)) = true.
Proof.
  intros Hb Hne. destruct (recognized (currentCategory (scan pre))) eqn:Hr;
    [reflexivity|]. destruct Hne. apply scan_step_dropped; assumption.
Qed.

(** A line with the marker that does not match leaves the whole state as it
    is. *)
Lemma scan_step_marker st tip :
  startsWith tip heading_marker = true -> str_match tip = None ->
  scan_step st tip = st.
Proof. unfold scan_step. intros -> ->. reflexivity. Qed.

Lemma pure_step_marker_categories st tip :
  startsWith tip heading_marker = true ->
  p_categories (pure_step st tip) = p_categories st.
Proof.
  unfold pure_step. intros ->. destruct (str_match tip); reflexivity.
Qed.

(** Deleting a line that leaves the state as it is does not change the
    buckets. *)
Lemma categorize_delete pre tip post :
  scan_step (scan pre) tip = scan pre ->
  categorize (pre ++ tip :: post) = categorize (pre ++ post).
Proof.
  intros H. unfold categorize. rewrite !scan_app. simpl. rewrite H. reflexivity.
Qed.

(** Before the first heading that names a category every bucket is empty
    and no category is current. *)
Lemma no_recognized_heading pre :
  Forall (fun t => forall c, c ∈ category_names ->
                           heading_name t <> Some (Str c)) pre ->
  recognized (currentCategory (scan pre)) = false
  /\ p_categories (pure_scan pre) = p_categories pure_init.
Proof.
  induction pre as [|t pre IH] using rev_ind; intros Hall.
  - split; reflexivity.
  - apply Forall_app in Hall as [Hpre Ht].
    destruct (IH Hpre) as [Hr Hcats]. split.
    + destruct (recognized (currentCategory (scan (pre ++ [t])))) eqn:E;
        [|reflexivity].
      destruct (current_origin _ E)
        as (c & l1 & h & l2 & _ & Hc & Heq & Hh & _).
      assert (Hin : h ∈ pre ++ [t])
        by (rewrite Heq; apply elem_of_app; right; left).
      apply Forall_app_2 with (l2 := [t]) in Hpre; [|exact Ht].
      rewrite Forall_forall in Hpre.
      destruct (Hpre h Hin c Hc Hh).
    + rewrite pure_scan_snoc, <- Hcats. rewrite current_pure in Hr.
      destruct (is_body t) eqn:Hb.
      * rewrite pure_step_dropped; [reflexivity|exact Hb|].
        rewrite pure_scan_keys. exact Hr.
      * apply pure_step_marker_categories. unfold is_body in Hb.
        destruct (startsWith t heading_marker); [reflexivity|discriminate].
Qed.

(** Every bucket and the accumulator are subsequences of the input and
    hold body lines only. *)
Lemma pure_scan_sublist pre :
  (forall k v, (k, v) ∈ p_categories (pure_scan pre) ->
               v `sublist_of` pre /\ Forall (fun x => is_body x = true) v)
  /\ p_tips (pure_scan pre) `sublist_of` pre
  /\ Forall (fun x => is_body x = true) (p_tips (pure_scan pre)).
Proof.
  induction pre as [|t pre (IHc & IHt & IHb)] using rev_ind.
  - split; [|split; [reflexivity|constructor]].
    intros k v Hin. simpl in Hin.
    repeat (apply elem_of_cons in Hin as [[= -> ->]|Hin];
            [split; [reflexivity|constructor]|]).
    inversion Hin.
  - rewrite pure_scan_snoc. unfold pure_step.
    destruct (startsWith t heading_marker) eqn:Hs.
    + destruct (str_match t); simpl.
      * split; [|split; [apply sublist_nil_l|constructor]].
        intros k v Hin. destruct (IHc k v Hin).
        split; [apply sublist_inserts_r|]; assumption.
      * split; [|split; [apply sublist_inserts_r|]; assumption].
        intros k v Hin. destruct (IHc k v Hin).
        split; [apply sublist_inserts_r|]; assumption.
    + assert (Hnew : (p_tips (pure_scan pre) ++ [t]) `sublist_of` (pre ++ [t])
                     /\ Forall (fun x => is_body x = true)
                               (p_tips (pure_scan pre) ++ [t])).
      { split; [apply sublist_app; [exact IHt|reflexivity]|].
        apply Forall_app. split; [exact IHb|]. constructor; [|constructor].
        unfold is_body. rewrite Hs. reflexivity. }
      destruct (truthy _ && _); simpl.
      * split; [|exact Hnew]. intros k v Hin.
        destruct (elem_of_obj_set _ _ _ _ Hin) as [[= -> ->]|Hold];
          [exact Hnew|].
        destruct (IHc k v Hold). split; [apply sublist_inserts_r|]; assumption.
      * split; [|split; [apply sublist_inserts_r|]; assumption].
        intros k v Hin. destruct (IHc k v Hin).
        split; [apply sublist_inserts_r|]; assumption.
Qed.

Lemma bucket_elem c tips :
  bucket c tips = [] \/ (c, bucket c tips) ∈ p_categories (pure_scan tips).
Proof.
  rewrite bucket_pure.
  destruct (obj_get c (p_categories (pure_scan tips))) as [v|] eqn:E;
    [right|left; reflexivity].
  apply obj_get_Some_key, E.
Qed.

(** A nonempty bucket was filled under a heading that names its category. *)
Lemma bucket_origin c l :
  bucket c l <> [] ->
  exists l1 h l2, l = l1 ++ h :: l2 /\ heading_name h = Some (Str c).
Proof.
  remember (length l) as n eqn:Hn. revert l Hn.
  induction n as [n IH] using lt_wf_ind. intros l -> Hne.
  destruct (last_heading_split l) as [Hno|(l1 & h & l2 & -> & Hh & Hl2)].
  - destruct Hne. rewrite bucket_pure, (pure_scan_no_heading _ Hno).
    simpl. repeat (destruct (str_eqb c _); [reflexivity|]). reflexivity.
  - apply is_heading_name in Hh as [v Hv].
    assert (Hrec : bucket c l1 <> [] ->
              exists l0 h0 l3, l1 ++ h :: l2 = l0 ++ h0 :: l3
                               /\ heading_name h0 = Some (Str c)).
    { intros H1.
      destruct (IH (length l1)) with (l := l1)
        as (q1 & h0 & q2 & -> & Hh0); [|reflexivity|exact H1|].
      - rewrite length_app. simpl. lia.
      - exists q1, h0, (q2 ++ h :: l2). rewrite <- app_assoc. auto. }
    destruct (recognized v) eqn:Hr.
    + apply recognized_iff in Hr as (c' & -> & Hc').
      destruct (decide (c' = c)) as [->|Hcc]; [eauto|].
      apply Hrec. intros H1. apply Hne. rewrite bucket_pure in *.
      rewrite (pure_scan_last_recognized _ _ _ _ Hv Hc' Hl2). simpl.
      destruct (body_after l2); [exact H1|].
      rewrite obj_get_set_ne by exact Hcc. exact H1.
    + apply Hrec. intros H1. apply Hne. rewrite bucket_pure in *.
      rewrite (pure_scan_last_unrecognized _ _ _ _ Hv Hr Hl2). exact H1.
Qed.

(** ** Repeated headings, dropped lines and marker lines *)

Lemma bucket_after_last pre h post c :
  heading_name h = Some (Str c) -> c ∈ category_names ->
  Forall (fun t => heading_name t <> Some (Str c)) post ->
  bucket c (pre ++ h :: post)
  = match body_after post with
    | [] => bucket c pre
    | x :: b => x :: b
    end.
Proof.
  intros Hh Hc Hpost. rewrite !bucket_pure.
  rewrite (pure_bucket_after_last _ _ _ _ Hh Hc Hpost).
  destruct (body_after post); reflexivity.
Qed.

(** C1, as amended: after the last heading that names a recognized
    category, once at least one body line follows it before the next
    heading, the final bucket of the category holds exactly those body
    lines and nothing accumulated under an earlier occurrence. *)
Theorem C1_last_heading_resets_bucket pre h post c :
  heading_name h = Some (Str c) -> c ∈ category_names ->
  Forall (fun t => heading_name t <> Some (Str c)) post ->
  body_after post <> [] ->
  bucket c (pre ++ h :: post) = body_after post.
Proof.
  intros Hh Hc Hpost Hne. rewrite (bucket_after_last _ _ _ _ Hh Hc Hpost).
  destruct (body_after post); congruence.
Qed.

Lemma C1_last_heading_witness :
  bucket QuickWins
    ([js "## 1. Quick Wins"; js "a"] ++ js "## 2. Quick Wins" :: [js "b"])
  = body_after [js "b"].
Proof.
  apply (C1_last_heading_resets_bucket
           [js "## 1. Quick Wins"; js "a"] (js "## 2. Quick Wins") [js "b"]
           QuickWins).
  - vm_compute. reflexivity.
  - left.
  - repeat constructor. vm_compute. discriminate.
  - vm_compute. discriminate.
Defined.

(** C1, as stated, fails: a second "Quick Wins" heading with no body line
    after it is the last occurrence, no body line follows it, and the
    final bucket still holds the line of the first occurrence. *)
Lemma C1_reset_counterexample :
  let pre := [js "## 1. Quick Wins"; js "a"] in
  let h := js "## 2. Quick Wins" in
  let post := @nil jsstring in
  heading_name (js "## 1. Quick Wins") = Some (Str QuickWins)
  /\ heading_name h = Some (Str QuickWins)
  /\ body_after post = []
  /\ bucket QuickWins (pre ++ h :: post) = [js "a"]
  /\ bucket QuickWins (pre ++ h :: post) <> body_after post.
Proof. vm_compute. repeat split; discriminate. Qed.

(** C9, as amended: when a heading names a recognized category for the
    last time in the input and no body line follows it before the next
    line that matches the heading pattern or the end of the input, the
    final bucket of the category is the bucket it held before that heading. *)
Theorem C9_heading_alone_keeps_bucket pre h post c :
  heading_name h = Some (Str c) -> c ∈ category_names ->
  Forall (fun t => heading_name t <> Some (Str c)) post ->
  body_after post = [] ->
  bucket c (pre ++ h :: post) = bucket c pre.
Proof.
  intros Hh Hc Hpost Hb. rewrite (bucket_after_last _ _ _ _ Hh Hc Hpost), Hb.
  reflexivity.
Qed.

Lemma C9_heading_alone_witness :
  bucket QuickWins
    ([js "## 1. Quick Wins"; js "a"]
       ++ js "## 2. Quick Wins" :: [js "## 3. Sustainable Living"; js "b"])
  = bucket QuickWins [js "## 1. Quick Wins"; js "a"].
Proof.
  apply (C9_heading_alone_keeps_bucket
           [js "## 1. Quick Wins"; js "a"] (js "## 2. Quick Wins")
           [js "## 3. Sustainable Living"; js "b"] QuickWins).
  - vm_compute. reflexivity.
  - left.
  - repeat constructor; vm_compute; discriminate.
  - vm_compute. reflexivity.
Defined.

(** C9, as stated, fails: the second "Quick Wins" heading is followed at
    once by a heading line, yet the final bucket has lost the line of the
    first occurrence, because the third occurrence receives a body line. *)
Lemma C9_later_occurrence_counterexample :
  let pre := [js "## 1. Quick Wins"; js "a"] in
  let h := js "## 2. Quick Wins" in
  let post := [js "## 3. Quick Wins"; js "b"] in
  heading_name (js "## 1. Quick Wins") = Some (Str QuickWins)
  /\ heading_name h = Some (Str QuickWins)
  /\ is_heading (js "## 3. Quick Wins") = true
  /\ body_after post = []
  /\ bucket QuickWins pre = [js "a"]
  /\ bucket QuickWins (pre ++ h :: post) = [js "b"]
  /\ js "a" ∉ bucket QuickWins (pre ++ h :: post).
Proof.
  vm_compute. repeat split.
  intros H. apply list_elem_of_singleton in H. discriminate.
Qed.

(** C2: a body line changes the scan state, and so reaches a bucket, only
    if the current category is one of the five names and was stored by a
    heading earlier in the sequence with no other heading since; a body
    line met while the current category is unset or unrecognized, and in
    particular any line before the first heading that names a category,
    leaves the state as it is, so that deleting it from the input changes
    no bucket. *)
Theorem C2_body_line_needs_recognized_heading pre tip post :
  is_body tip = true ->
  (scan (pre ++ [tip]) <> scan pre ->
     exists c pre1 h pre2,
       currentCategory (scan pre) = Str c /\ c ∈ category_names
       /\ pre = pre1 ++ h :: pre2 /\ heading_name h = Some (Str c)
       /\ Forall (fun t => is_heading t = false) pre2)
  /\ (recognized (currentCategory (scan pre)) = false ->
        scan (pre ++ [tip]) = scan pre
        /\ categorize (pre ++ tip :: post) = categorize (pre ++ post))
  /\ (Forall (fun t => forall c, c ∈ category_names ->
                                 heading_name t <> Some (Str c)) pre ->
        recognized (currentCategory (scan pre)) = false
        /\ (forall c, bucket c (pre ++ [tip]) = [])
        /\ categorize (pre ++ tip :: post) = categorize (pre ++ post)).
Proof.
  intros Hb. rewrite scan_snoc.
  assert (Hdrop : recognized (currentCategory (scan pre)) = false ->
            scan_step (scan pre) tip = scan pre
            /\ categorize (pre ++ tip :: post) = categorize (pre ++ post)).
  { intros Hr. pose proof (scan_step_dropped _ _ Hb Hr) as Hs.
    split; [exact Hs|apply categorize_delete, Hs]. }
  split; [|split; [exact Hdrop|]].
  - intros Hne. apply (scan_step_changes _ _ Hb) in Hne.
    destruct (current_origin _ Hne)
      as (c & l1 & h & l2 & Hc & Hin & Heq & Hh & Hl2 & _).
    exists c, l1, h, l2. auto.
  - intros Hall. destruct (no_recognized_heading _ Hall) as [Hr Hcats].
    destruct (Hdrop Hr) as [Hs Hdel]. split; [exact Hr|]. split; [|exact Hdel].
    intros c. unfold bucket, categorize. rewrite scan_snoc, Hs.
    change (obj_entries (scan pre)) with (categorize pre).
    rewrite categorize_pure, Hcats. simpl.
    repeat (destruct (str_eqb c _); [reflexivity|]). reflexivity.
Qed.

Lemma C2_body_line_witness :
  let pre := [js "## 1. Notes"; js "stray"] in
  let tip := js "Just a stray line" in
  let post := [js "## 2. Quick Wins"; js "Turn off lights"] in
  (is_body tip = true
   /\ recognized (currentCategory (scan pre)) = false
   /\ (forall c, bucket c (pre ++ [tip]) = [])
   /\ categorize (pre ++ tip :: post) = categorize (pre ++ post))
  /\ exists c pre1 h pre2,
       currentCategory (scan (pre ++ post)) = Str c /\ c ∈ category_names
       /\ pre ++ post = pre1 ++ h :: pre2 /\ heading_name h = Some (Str c)
       /\ Forall (fun t => is_heading t = false) pre2.
Proof.
  intros pre tip post.
  assert (Hb : is_body tip = true) by reflexivity.
  split.
  - split; [exact Hb|].
    apply (C2_body_line_needs_recognized_heading pre tip post Hb).
    repeat constructor; intros c Hc; vm_compute; intros [= <-];
      vm_compute in Hc;
      repeat (apply elem_of_cons in Hc as [Hc|Hc]; [discriminate Hc|]);
      inversion Hc.
  - apply (C2_body_line_needs_recognized_heading (pre ++ post) tip [] Hb).
    vm_compute. discriminate.
Defined.

(** C7: every final bucket is a subsequence of the input, made of body
    lines as they stand in the input and in their order; the buckets start
    empty; a line either leaves a bucket as it is, or is appended to it, or,
    when it is the first body line after a heading that names the bucket's
    own category, replaces what the bucket held, which, if anything, was
    accumulated under an earlier heading of that category. *)
Theorem C7_buckets_are_subsequences :
  (forall tips c,
     bucket c tips `sublist_of` tips
     /\ Forall (fun x => is_body x = true) (bucket c tips))
  /\ (forall c, bucket c [] = [])
  /\ (forall pre tip c,
        bucket c (pre ++ [tip]) = bucket c pre
        \/ bucket c (pre ++ [tip]) = bucket c pre ++ [tip]
        \/ (bucket c (pre ++ [tip]) = [tip]
            /\ exists pre1 h pre2,
                 pre = pre1 ++ h :: pre2
                 /\ heading_name h = Some (Str c)
                 /\ Forall (fun t => is_heading t = false) pre2
                 /\ body_after pre2 = []
                 /\ bucket c pre = bucket c pre1
                 /\ (bucket c pre <> [] ->
                     exists q1 h0 q2, pre1 = q1 ++ h0 :: q2
                                      /\ heading_name h0 = Some (Str c)))).
Proof.
  split; [|split].
  - intros tips c. destruct (bucket_elem c tips) as [->|Hin].
    + split; [apply sublist_nil_l|constructor].
    + apply (proj1 (pure_scan_sublist tips)) in Hin. exact Hin.
  - intros c. rewrite bucket_pure. simpl.
    repeat (destruct (str_eqb c _); [reflexivity|]). reflexivity.
  - intros pre tip c.
    destruct (is_body tip) eqn:Hb.
    2:{ left. rewrite !bucket_pure, pure_scan_snoc.
        rewrite pure_step_marker_categories; [reflexivity|].
        unfold is_body in Hb.
        destruct (startsWith tip heading_marker); [reflexivity|discriminate]. }
    destruct (recognized (currentCategory (scan pre))) eqn:Hr.
    2:{ left. unfold bucket, categorize.
        rewrite scan_snoc, (scan_step_dropped _ _ Hb Hr). reflexivity. }
    destruct (current_origin _ Hr)
      as (c' & l1 & h & l2 & Hcur & Hc' & -> & Hh & Hl2 & Htips).
    rewrite current_pure in Hcur.
    rewrite !bucket_pure, pure_scan_snoc.
    rewrite (pure_step_body _ _ c' Hb Hcur (category_name_nonempty _ Hc'))
      by (rewrite pure_scan_keys; exact Hc').
    simpl. rewrite Htips.
    destruct (decide (c' = c)) as [->|Hcc].
    2:{ left. rewrite obj_get_set_ne by exact Hcc. reflexivity. }
    rewrite obj_get_set_eq. simpl.
    rewrite (pure_scan_last_recognized _ _ _ _ Hh Hc' Hl2). simpl.
    destruct (body_after l2) as [|x b] eqn:Hbody.
    + right; right. split; [reflexivity|].
      exists l1, h, l2. repeat split; auto.
      * rewrite bucket_pure. reflexivity.
      * intros Hne. apply bucket_origin. rewrite bucket_pure. exact Hne.
    + right; left. rewrite obj_get_set_eq. reflexivity.
Qed.

(** C8: a line that starts with the heading marker is in no bucket of any
    input and leaves every bucket as it is; when it does not match the
    heading pattern it leaves the whole state as it is, the current
    category included, so that the lines after it are processed as if it
    were not there. *)
Theorem C8_marker_line_never_appended pre tip post :
  startsWith tip heading_marker = true ->
  (forall tips c, tip ∉ bucket c tips)
  /\ categorize (pre ++ [tip]) = categorize pre
  /\ (str_match tip = None ->
        scan (pre ++ [tip]) = scan pre
        /\ currentCategory (scan (pre ++ [tip])) = currentCategory (scan pre)
        /\ categorize (pre ++ tip :: post) = categorize (pre ++ post)).
Proof.
  intros Hs. split; [|split].
  - intros tips c Hin.
    destruct (bucket_elem c tips) as [He|Hk];
      [rewrite He in Hin; inversion Hin|].
    apply (proj1 (pure_scan_sublist tips)) in Hk as [_ Hbody].
    rewrite Forall_forall in Hbody. specialize (Hbody _ Hin).
    unfold is_body in Hbody. rewrite Hs in Hbody. discriminate.
  - rewrite !categorize_pure, pure_scan_snoc.
    apply pure_step_marker_categories, Hs.
  - intros Hm. pose proof (scan_step_marker (scan pre) _ Hs Hm) as Hstep.
    rewrite scan_snoc, Hstep. repeat split. apply categorize_delete, Hstep.
Qed.

Lemma C8_marker_line_witness :
  let pre := [js "## 1. Quick Wins"; js "a"] in
  let tip := js "## Notes" in
  let post := [js "b"] in
  (forall tips c, tip ∉ bucket c tips)
  /\ categorize (pre ++ [tip]) = categorize pre
  /\ scan (pre ++ [tip]) = scan pre
  /\ currentCategory (scan (pre ++ [tip])) = Str QuickWins
  /\ categorize (pre ++ tip :: post) = categorize (pre ++ post)
  /\ bucket QuickWins (pre ++ tip :: post) = [js "a"; js "b"].
Proof.
  intros pre tip post.
  destruct (C8_marker_line_never_appended pre tip post eq_refl)
    as (Hnot & Hsame & Hrest).
  destruct (Hrest eq_refl) as (Hscan & Hcur & Hdel).
  split; [exact Hnot|]. split; [exact Hsame|]. split; [exact Hscan|].
  split; [rewrite Hcur; reflexivity|]. split; [exact Hdel|].
  vm_compute. reflexivity.
Defined.

(** ** Rendering *)

Lemma obj_canonical (o : object (list jsstring)) :
  NoDup (obj_keys o) ->
  o = map (fun k => (k, default [] (obj_get k o))) (obj_keys o).
Proof.
  induction o as [|[k v] o IH]; simpl; intros Hnd; [reflexivity|].
  apply NoDup_cons in Hnd as [Hk Hnd].
  rewrite str_eqb_refl. simpl. f_equal.
  rewrite (IH Hnd) at 1. apply map_ext_in. intros k' Hin.
  destruct (str_eqb k' k) eqn:E; [|reflexivity].
  apply str_eqb_eq in E as ->. destruct Hk. apply list_elem_of_In, Hin.
Qed.

Lemma category_names_NoDup : NoDup category_names.
Proof. apply (bool_decide_unpack _). vm_compute. reflexivity. Qed.

Lemma categorize_names tips :
  categorize tips = map (fun c => (c, bucket c tips)) category_names.
Proof.
  rewrite (obj_canonical (categorize tips)) at 1.
  - rewrite categorize_pure, pure_scan_keys.
    apply map_ext. intros c. rewrite bucket_pure. reflexivity.
  - rewrite categorize_pure, pure_scan_keys. apply category_names_NoDup.
Qed.

Lemma render_entry_Some c l k :
  render_entry (c, l) = Some k ->
  l <> [] /\ card_title k = c /\ card_key k = c /\ card_count k = length l.
Proof.
  unfold render_entry. destruct l as [|x l]; simpl; [discriminate|].
  intros [= <-]. repeat split. discriminate.
Qed.

Lemma render_entry_nonempty c l :
  l <> [] -> exists k, render_entry (c, l) = Some k.
Proof.
  unfold render_entry. destruct l as [|x l]; [congruence|]. simpl. eauto.
Qed.

Lemma elem_of_rendered_cards tips k :
  k ∈ rendered_cards tips <->
  exists c, c ∈ category_names /\ render_entry (c, bucket c tips) = Some k.
Proof.
  unfold rendered_cards, renderTipCards. rewrite categorize_names.
  rewrite list_elem_of_omap. split.
  - intros (o & Hin & Hk). simpl in Hk. subst o.
    apply list_elem_of_In, in_map_iff in Hin as (e & He & Hin).
    apply in_map_iff in Hin as (c & <- & Hc).
    exists c. split; [apply list_elem_of_In, Hc|auto].
  - intros (c & Hc & Hk). exists (Some k). split; [|reflexivity].
    apply list_elem_of_In, in_map_iff. exists (c, bucket c tips).
    split; [exact Hk|]. apply in_map_iff. exists c.
    split; [reflexivity|apply list_elem_of_In, Hc].
Qed.

(** C6: the rendered cards are exactly the cards of the categories whose
    bucket is not empty; a category with an empty bucket has no card, and
    one with a nonempty bucket has a card that counts its lines. *)
Theorem C6_cards_are_the_nonempty_buckets tips :
  (forall k, k ∈ rendered_cards tips <->
     exists c, c ∈ category_names /\ bucket c tips <> []
               /\ render_entry (c, bucket c tips) = Some k)
  /\ (forall c k, bucket c tips = [] -> k ∈ rendered_cards tips ->
                  card_title k <> c)
  /\ (forall c, c ∈ category_names -> bucket c tips <> [] ->
        exists k, k ∈ rendered_cards tips /\ card_title k = c
                  /\ card_count k = length (bucket c tips)).
Proof.
  split; [|split].
  - intros k. rewrite elem_of_rendered_cards. split.
    + intros (c & Hc & Hk). exists c.
      destruct (render_entry_Some _ _ _ Hk) as (Hne & _). auto.
    + intros (c & Hc & _ & Hk). eauto.
  - intros c k He Hin Ht. apply elem_of_rendered_cards in Hin as (c' & _ & Hk).
    destruct (render_entry_Some _ _ _ Hk) as (Hne & Htitle & _).
    rewrite Ht in Htitle. subst c'. contradiction.
  - intros c Hc Hne. destruct (render_entry_nonempty c _ Hne) as [k Hk].
    exists k. destruct (render_entry_Some _ _ _ Hk) as (_ & Ht & _ & Hn).
    split; [apply elem_of_rendered_cards; eauto|auto].
Qed.

Lemma rendered_titles (f : jsstring -> list jsstring) (names : list jsstring) :
  map card_title (omap id (map render_entry (map (fun c => (c, f c)) names)))
  = List.filter (fun c => (0 <? length (f c))%nat) names.
Proof.
  induction names as [|c names IH]; simpl; [reflexivity|].
  destruct (f c) as [|x l] eqn:E; simpl; [exact IH|].
  f_equal. exact IH.
Qed.

(** C10: the titles of the rendered cards, in rendering order, are the five
    names in their declaration order restricted to the categories whose
    bucket is not empty, whatever the order of the headings in the input. *)
Theorem C10_cards_in_declaration_order tips :
  map card_title (rendered_cards tips)
  = List.filter (fun c => (0 <? length (bucket c tips))%nat)
      [QuickWins; SustainableLiving; TransportationMobility;
       CommunitySocialImpact; EnvironmentalProtection].
Proof.
  unfold rendered_cards, renderTipCards. rewrite categorize_names.
  apply rendered_titles.
Qed.

(** ** Name extraction *)

Lemma regex_exec_here r s m :
  match_here r s = Some m -> regex_exec r s = Some m.
Proof. intros H. destruct s; simpl; rewrite H; reflexivity. Qed.

Lemma category_name_solid c :
  c ∈ category_names -> solid_name c = true /\ stops Space c /\ c <> [].
Proof.
  intros Hc. unfold category_names in Hc.
  repeat (apply elem_of_cons in Hc as [->|Hc];
          [repeat split; discriminate|]).
  inversion Hc.
Qed.

Lemma startsWith_app p s : startsWith (p ++ s) p = true.
Proof.
  induction p as [|x p IH]; simpl; [destruct s; reflexivity|].
  rewrite N.eqb_refl. exact IH.
Qed.

(** C3, as amended: on a heading line made of the marker, an ordinal of
    digits and a period, any white space, one of the five names and,
    optionally, white space and a parenthetical note that ends the line,
    with nothing after its closing parenthesis, the pattern matches the
    whole line and its group is exactly the name: the marker, the ordinal
    and the note with the white space before it are left out. *)
Theorem C3_heading_name_extracted ds ws c note :
  ds <> [] ->
  Forall (fun x => is_digit x = true) ds ->
  Forall (fun x => is_space x = true) ws ->
  c ∈ category_names ->
  note = [] \/ parenthetical_note note ->
  let tip := heading_marker ++ ds ++ js "." ++ ws ++ c ++ note in
  startsWith tip heading_marker = true
  /\ str_match tip = Some [(0%nat, tip); (1%nat, c)]
  /\ heading_name tip = Some (Str c).
Proof.
  intros Hne Hds Hws Hc Hnote tip.
  destruct (category_name_solid c Hc) as (Hsolid & Hstop & Hc0).
  assert (Hs : startsWith tip heading_marker = true) by apply startsWith_app.
  assert (Hm : str_match tip = Some [(0%nat, tip); (1%nat, c)]).
  { apply regex_exec_here. unfold match_here.
    apply (category_regex_run ds ws c note); try assumption.
    destruct Hnote as [->|(ws2 & content & Hws2 & Hcontent & ->)].
    - rewrite note_regex_end, consumed_all. reflexivity.
    - apply (note_regex_note ws2 content); [assumption..|].
      rewrite consumed_all. reflexivity. }
  split; [exact Hs|]. split; [exact Hm|].
  unfold heading_name. rewrite Hs, Hm. reflexivity.
Qed.

Lemma C3_heading_name_witness :
  let tip := heading_marker ++ js "12" ++ js "." ++ js " " ++ QuickWins
               ++ js "  (do these today)" in
  startsWith tip heading_marker = true
  /\ str_match tip = Some [(0%nat, tip); (1%nat, QuickWins)]
  /\ heading_name tip = Some (Str QuickWins).
Proof.
  apply (C3_heading_name_extracted (js "12") (js " ") QuickWins
           (js "  (do these today)")).
  - discriminate.
  - repeat constructor.
  - repeat constructor.
  - left.
  - right. exists (js "  "), (js "do these today").
    split; [repeat constructor|]. split; [repeat constructor|reflexivity].
Defined.

(** C3, as stated, fails: white space after the closing parenthesis is
    white space around the note, yet with it the note is not discarded.
    The group takes the name, the note and the white space, the result is
    none of the five names, and the lines under the heading are dropped. *)
Lemma C3_trailing_space_counterexample :
  let tip := heading_marker ++ js "1" ++ js "." ++ js " " ++ QuickWins
               ++ js " (note)" ++ js " " in
  tip = js "## 1. Quick Wins (note) "
  /\ parenthetical_note (js " (note)")
  /\ Forall (fun x => is_space x = true) (js " ")
  /\ heading_name tip = Some (Str (js "Quick Wins (note) "))
  /\ heading_name tip <> Some (Str QuickWins)
  /\ recognized (Str (js "Quick Wins (note) ")) = false
  /\ bucket QuickWins [tip; js "Turn off lights"] = [].
Proof.
  split; [reflexivity|]. split.
  { exists (js " "), (js "note").
    split; [repeat constructor|]. split; [repeat constructor|reflexivity]. }
  split; [repeat constructor|].
  vm_compute. repeat split. discriminate.
Qed.

(** ** Further evaluations *)

(** The second scenario of the specification: a stray line with no heading
    before it gives no card. *)
Example stray_line_no_card : rendered_cards [js "Just a stray line"] = [].
Proof. vm_compute. reflexivity. Qed.

(** White space after the closing parenthesis is not part of the note: the
    pattern still matches, and the group takes the rest of the line. *)
Example note_then_space_kept :
  heading_name (js "## 1. Quick Wins (note) ")
  = Some (Str (js "Quick Wins (note) ")).
Proof. vm_compute. reflexivity. Qed.

(** The pattern is not anchored at the marker that [startsWith] has seen. *)
Example later_marker_matches :
  heading_name (js "## see ## 2. Sustainable Living")
  = Some (Str SustainableLiving).
Proof. vm_compute. reflexivity. Qed.

(** A heading without a name stores the empty string, which is falsy. *)
Example empty_name_is_falsy :
  heading_name (js "## 3.") = Some (Str [])
  /\ recognized (Str []) = false.
Proof. vm_compute. split; reflexivity. Qed.

(** A successful submission stores the returned lines and clears the
    error. *)
Example successful_submission :
  let st := {| location := js "Nairobi"; habits := js "I drive to work";
               tips := StringArray []; loading := false;
               error := Some error_message |} in
  fst (submit
         (Response 200 (Body (StringArray [js "## 1. Quick Wins"; js "Walk"])))
         st)
  = {| location := js "Nairobi"; habits := js "I drive to work";
       tips := StringArray [js "## 1. Quick Wins"; js "Walk"];
       loading := false; error := None |}.
Proof. vm_compute. reflexivity. Qed.

(** ** Inversion of the matcher *)

Section RepetitionInversion.
Context {R : Type}.
Implicit Types (a : atom) (k : jsstring -> option R).

(** A successful run consumed code units of the class and then satisfied
    the continuation. *)
Lemma repeat_atom_inv g a s k r :
  repeat_atom g a s k = Some r ->
  exists xs s', s = xs ++ s'
    /\ Forall (fun x => atom_matches a x = true) xs
    /\ k s' = Some r.
Proof.
  induction s as [|x s IH]; simpl.
  - intros H. exists [], []. auto.
  - destruct (atom_matches a x) eqn:Hx.
    2:{ intros H. exists [], (x :: s). auto. }
    assert (Hmore : repeat_atom g a s k = Some r ->
              exists xs s', x :: s = xs ++ s'
                /\ Forall (fun x => atom_matches a x = true) xs
                /\ k s' = Some r).
    { intros H. destruct (IH H) as (xs & s' & -> & Hxs & Hk).
      exists (x :: xs), s'. auto. }
    assert (Hhere : k (x :: s) = Some r ->
              exists xs s', x :: s = xs ++ s'
                /\ Forall (fun x => atom_matches a x = true) xs
                /\ k s' = Some r).
    { intros H. exists [], (x :: s). auto. }
    destruct g.
    + destruct (repeat_atom true a s k) as [r0|] eqn:E.
      * intros [= ->]. apply Hmore. reflexivity.
      * exact Hhere.
    + destruct (k (x :: s)) as [r0|] eqn:E.
      * intros [= ->]. apply Hhere. reflexivity.
      * exact Hmore.
Qed.

(** A successful lazy run stopped at the first input that satisfies the
    continuation. *)
Lemma repeat_lazy_inv a s k r :
  repeat_atom false a s k = Some r ->
  exists xs s', s = xs ++ s'
    /\ Forall (fun x => atom_matches a x = true) xs
    /\ k s' = Some r
    /\ forall xs1 xs2, xs = xs1 ++ xs2 -> xs2 <> [] -> k (xs2 ++ s') = None.
Proof.
  induction s as [|x s IH]; simpl.
  - intros H. exists [], []. repeat split; auto.
    intros xs1 xs2 Hx Hne. destruct xs1, xs2; simpl in Hx; congruence.
  - assert (Hhere : k (x :: s) = Some r ->
              exists xs s', x :: s = xs ++ s'
                /\ Forall (fun x => atom_matches a x = true) xs
                /\ k s' = Some r
                /\ forall xs1 xs2, xs = xs1 ++ xs2 -> xs2 <> [] ->
                                   k (xs2 ++ s') = None).
    { intros H. exists [], (x :: s). repeat split; auto.
      intros xs1 xs2 Hx Hne. destruct xs1, xs2; simpl in Hx; congruence. }
    destruct (atom_matches a x) eqn:Hx; [|exact Hhere].
    destruct (k (x :: s)) as [r0|] eqn:E.
    + intros [= ->]. apply Hhere. reflexivity.
    + intros H. destruct (IH H) as (xs & s' & -> & Hxs & Hk & Hmin).
      exists (x :: xs), s'. repeat split; auto.
      intros xs1 xs2 Heq Hne. destruct xs1 as [|y xs1]; simpl in Heq.
      * subst xs2. exact E.
      * injection Heq as -> ->. apply (Hmin xs1 xs2); auto.
Qed.
End RepetitionInversion.

(** A successful run of the tail of the pattern: the end of the input, or
    a parenthetical note up to the end of the input. *)
Lemma note_regex_inv {R} tail c (k : jsstring -> captures -> option R) r :
  run_regex note_regex tail c k = Some r ->
  (tail = [] \/ parenthetical_note tail) /\ k [] c = Some r.
Proof.
  unfold note_regex. simpl.
  destruct (repeat_atom true Space tail _) as [r0|] eqn:E.
  - intros [= ->]. apply repeat_atom_inv in E as (ws & s1 & -> & Hws & E).
    destruct s1 as [|x s1]; [discriminate|].
    destruct (N.eqb x 40) eqn:Hx; [|discriminate].
    apply N.eqb_eq in Hx as ->.
    apply repeat_atom_inv in E as (content & s2 & -> & Hcontent & E).
    destruct s2 as [|y s2]; [discriminate|].
    destruct (N.eqb y 41) eqn:Hy; [|discriminate].
    apply N.eqb_eq in Hy as ->.
    destruct (Nat.eqb _ _); [discriminate|].
    destruct s2; [|discriminate].
    split; [|exact E]. right. exists ws, content. split; [exact Hws|].
    split; [|reflexivity].
    eapply Forall_impl; [exact Hcontent|]. simpl. intros z Hz.
    destruct (is_line_terminator z); [discriminate|reflexivity].
  - destruct tail; [|discriminate]. auto.
Qed.

(** A successful run of the pattern at the front of [s]: [s] is the marker,
    an ordinal, white space, the captured text and the tail; the captured
    text is the shortest one after which the tail of the pattern accepts. *)
Lemma category_regex_inv {R} s c (k : jsstring -> captures -> option R) r :
  run_regex category_regex s c k = Some r ->
  exists ds ws name tail,
    s = heading_marker ++ ds ++ 46 :: ws ++ name ++ tail
    /\ ds <> []
    /\ Forall (fun x => is_digit x = true) ds
    /\ Forall (fun x => is_space x = true) ws
    /\ Forall (fun x => is_line_terminator x = false) name
    /\ run_regex note_regex tail ((1%nat, name) :: c) k = Some r
    /\ forall n1 n2, name = n1 ++ n2 -> n2 <> [] ->
         run_regex note_regex (n2 ++ tail) ((1%nat, n1) :: c) k = None.
Proof.
  unfold category_regex. change (js "## ") with [35; 35; 32]. intros H.
  destruct s as [|x0 s]; [discriminate|]. simpl in H.
  destruct (N.eqb x0 35) eqn:E0; [|discriminate]. apply N.eqb_eq in E0 as ->.
  destruct s as [|x1 s]; [discriminate|]. simpl in H.
  destruct (N.eqb x1 35) eqn:E1; [|discriminate]. apply N.eqb_eq in E1 as ->.
  destruct s as [|x2 s]; [discriminate|]. simpl in H.
  destruct (N.eqb x2 32) eqn:E2; [|discriminate]. apply N.eqb_eq in E2 as ->.
  destruct s as [|d s]; [discriminate|]. simpl in H.
  destruct (is_digit d) eqn:Hd; [|discriminate].
  apply repeat_atom_inv in H as (ds & s1 & -> & Hds & H).
  destruct s1 as [|p s1]; [discriminate|].
  destruct (N.eqb p 46) eqn:Ep; [|discriminate]. apply N.eqb_eq in Ep as ->.
  apply repeat_atom_inv in H as (ws & s2 & -> & Hws & H).
  apply repeat_lazy_inv in H as (name & tail & -> & Hname & H & Hmin).
  exists (d :: ds), ws, name, tail.
  split; [reflexivity|]. split; [discriminate|].
  split; [constructor; assumption|]. split; [exact Hws|].
  split; [|split].
  - eapply Forall_impl; [exact Hname|]. simpl. intros z Hz.
    destruct (is_line_terminator z); [discriminate|reflexivity].
  - rewrite consumed_app in H. exact H.
  - intros n1 n2 -> Hne. specialize (Hmin n1 n2 eq_refl Hne).
    cbv beta in Hmin. rewrite <- app_assoc in Hmin.
    rewrite consumed_app in Hmin. exact Hmin.
Qed.

(** [exec] reports a match of the pattern at some position of the input. *)
Lemma regex_exec_inv r s m :
  regex_exec r s = Some m ->
  exists skipped s', s = skipped ++ s' /\ match_here r s' = Some m.
Proof.
  induction s as [|x s IH]; simpl.
  - destruct (match_here r []) eqn:E; [|discriminate].
    intros [= ->]. exists [], []. auto.
  - destruct (match_here r (x :: s)) eqn:E.
    + intros [= ->]. exists [], (x :: s). auto.
    + intros H. destruct (IH H) as (sk & s' & -> & Hm).
      exists (x :: sk), s'. auto.
Qed.

(** The shape of every line the pattern matches, and of the match. *)
Lemma str_match_inv tip m :
  str_match tip = Some m ->
  exists skipped ds ws name tail,
    tip = skipped ++ heading_marker ++ ds ++ 46 :: ws ++ name ++ tail
    /\ ds <> []
    /\ Forall (fun x => is_digit x = true) ds
    /\ Forall (fun x => is_space x = true) ws
    /\ Forall (fun x => is_line_terminator x = false) name
    /\ (tail = [] \/ parenthetical_note tail)
    /\ m = [(0%nat, heading_marker ++ ds ++ 46 :: ws ++ name ++ tail);
            (1%nat, name)]
    /\ forall n1 n2, name = n1 ++ n2 -> n2 <> [] ->
         n2 ++ tail <> [] /\ ~ parenthetical_note (n2 ++ tail).
Proof.
  intros H. apply regex_exec_inv in H as (skipped & s & -> & H).
  unfold match_here in H.
  apply category_regex_inv
    in H as (ds & ws & name & tail & -> & Hne & Hds & Hws & Hname & H & Hmin).
  apply note_regex_inv in H as [Htail H]. rewrite consumed_all in H.
  injection H as <-.
  exists skipped, ds, ws, name, tail.
  do 7 (split; [solve [auto]|]).
  intros n1 n2 Hn Hne2. split; [destruct n2; [congruence|discriminate]|].
  intros (ws2 & content & Hws2 & Hcontent & Heq).
  specialize (Hmin n1 n2 Hn Hne2). rewrite Heq in Hmin.
  change (ws2 ++ js "(" ++ content ++ js ")")
    with (ws2 ++ 40 :: content ++ [41]) in Hmin.
  erewrite note_regex_note in Hmin; [discriminate|eassumption..|reflexivity].
Qed.

(** ** What every heading line looks like *)

Lemma heading_name_match tip v :
  heading_name tip = Some v ->
  startsWith tip heading_marker = true
  /\ exists m, str_match tip = Some m /\ v = match_index 1 m.
Proof. apply heading_name_Some. Qed.

(** Every line that sets the current category holds the marker, an ordinal
    of digits, a period, white space, the stored name and then nothing or a
    parenthetical note up to the end of the line; the stored name is a
    string without line terminator. *)
Theorem heading_name_shape tip v :
  heading_name tip = Some v ->
  exists skipped ds ws name tail,
    v = Str name
    /\ tip = skipped ++ heading_marker ++ ds ++ js "." ++ ws ++ name ++ tail
    /\ startsWith tip heading_marker = true
    /\ ds <> []
    /\ Forall (fun x => is_digit x = true) ds
    /\ Forall (fun x => is_space x = true) ws
    /\ Forall (fun x => is_line_terminator x = false) name
    /\ (tail = [] \/ parenthetical_note tail).
Proof.
  intros H. apply heading_name_match in H as (Hs & m & Hm & ->).
  apply str_match_inv in Hm
    as (skipped & ds & ws & name & tail & -> & Hne & Hds & Hws & Hname
        & Htail & -> & _).
  exists skipped, ds, ws, name, tail. repeat split; auto.
Qed.

Lemma heading_name_shape_witness :
  exists skipped ds ws name tail,
    Str (js "Walking") = Str name
    /\ js "## 7. Walking (easy)"
       = skipped ++ heading_marker ++ ds ++ js "." ++ ws ++ name ++ tail
    /\ startsWith (js "## 7. Walking (easy)") heading_marker = true
    /\ ds <> []
    /\ Forall (fun x => is_digit x = true) ds
    /\ Forall (fun x => is_space x = true) ws
    /\ Forall (fun x => is_line_terminator x = false) name
    /\ (tail = [] \/ parenthetical_note tail).
Proof.
  apply (heading_name_shape (js "## 7. Walking (easy)") (Str (js "Walking"))).
  vm_compute. reflexivity.
Defined.

Lemma Forall_digit_contra (l : jsstring) x :
  Forall (fun y => is_digit y = false) l ->
  x ∈ l -> is_digit x = true -> False.
Proof.
  intros Hl Hin Hx. rewrite Forall_forall in Hl.
  rewrite (Hl x Hin) in Hx. discriminate.
Qed.

Lemma scan_step_current_body st tip :
  startsWith tip heading_marker = false ->
  currentCategory (scan_step st tip) = currentCategory st.
Proof.
  unfold scan_step. intros ->.
  destruct (truthy _ && _); reflexivity.
Qed.

(** A line without any digit never matches the pattern, so it never
    changes the current category. *)
Theorem no_ordinal_no_heading tip :
  Forall (fun x => is_digit x = false) tip ->
  str_match tip = None
  /\ heading_name tip = None
  /\ forall pre,
       currentCategory (scan (pre ++ [tip])) = currentCategory (scan pre).
Proof.
  intros Hno.
  assert (Hm : str_match tip = None).
  { destruct (str_match tip) as [m|] eqn:E; [|reflexivity].
    apply str_match_inv in E
      as (skipped & ds & ws & name & tail & -> & Hne & Hds & _).
    destruct ds as [|d ds]; [congruence|].
    inversion Hds as [|? ? Hd _]; subst.
    destruct (Forall_digit_contra _ d Hno); [|exact Hd].
    apply elem_of_app. right. apply elem_of_app. right. left. }
  split; [exact Hm|]. split.
  { unfold heading_name. rewrite Hm. destruct (startsWith _ _); reflexivity. }
  intros pre. rewrite scan_snoc.
  destruct (startsWith tip heading_marker) eqn:Hs.
  - rewrite (scan_step_marker _ _ Hs Hm). reflexivity.
  - apply scan_step_current_body, Hs.
Qed.

Lemma no_ordinal_witness :
  str_match (js "## Notes") = None
  /\ heading_name (js "## Notes") = None
  /\ forall pre,
       currentCategory (scan (pre ++ [js "## Notes"]))
       = currentCategory (scan pre).
Proof.
  apply (no_ordinal_no_heading (js "## Notes")).
  repeat constructor.
Defined.

(** A note followed by the tail of a one-line heading is again a note. *)
Lemma note_app_tail note tail :
  parenthetical_note note ->
  tail = [] \/ parenthetical_note tail ->
  Forall (fun x => is_line_terminator x = false) tail ->
  parenthetical_note (note ++ tail).
Proof.
  intros (ws & content & Hws & Hcontent & ->) [->|Htail] Hline.
  - rewrite app_nil_r. exists ws, content. auto.
  - destruct Htail as (ws2 & c2 & Hws2 & Hc2 & ->).
    exists ws, (content ++ js ")" ++ ws2 ++ js "(" ++ c2).
    split; [exact Hws|]. split.
    + apply Forall_app in Hline as [Hl2 Hline].
      apply Forall_app. split; [exact Hcontent|].
      constructor; [reflexivity|].
      apply Forall_app. split; [exact Hl2|].
      constructor; [reflexivity|exact Hc2].
    + rewrite <- !app_assoc. reflexivity.
Qed.

(** On a heading without line terminator the stored name never ends with a
    parenthetical note: a trailing note is always left out of the name. *)
Theorem one_line_name_has_no_note tip name :
  Forall (fun x => is_line_terminator x = false) tip ->
  heading_name tip = Some (Str name) ->
  forall a note, name = a ++ note -> ~ parenthetical_note note.
Proof.
  intros Hline H a note Hname Hnote.
  apply heading_name_match in H as (_ & m & Hm & Hv).
  apply str_match_inv in Hm
    as (skipped & ds & ws & name' & tail & -> & _ & _ & _ & _
        & Htail & -> & Hmin).
  injection Hv as ->.
  assert (Hne : note <> []).
  { destruct Hnote as (w & c & _ & _ & ->). destruct w; discriminate. }
  destruct (Hmin a note Hname Hne) as [_ Hno]. apply Hno.
  apply note_app_tail; [exact Hnote|exact Htail|].
  repeat (apply Forall_app in Hline as [_ Hline]).
  inversion Hline as [|? ? _ Hline']; subst.
  repeat (apply Forall_app in Hline' as [_ Hline']). exact Hline'.
Qed.

Lemma one_line_name_witness : ~ parenthetical_note (js "ing").
Proof.
  apply (one_line_name_has_no_note
           (js "## 7. Walking (slow) (easy)") (js "Walking")
           ltac:(repeat constructor) ltac:(vm_compute; reflexivity)
           (js "Walk") (js "ing")).
  reflexivity.
Defined.

(** ** Invariants of the scan *)

Lemma str_match_group tip m :
  str_match tip = Some m -> exists name, match_index 1 m = Str name.
Proof.
  intros H. apply str_match_inv in H
    as (skipped & ds & ws & name & tail & _ & _ & _ & _ & _ & _ & -> & _).
  exists name. reflexivity.
Qed.

Lemma scan_step_current_Str st tip :
  (exists s, currentCategory st = Str s) ->
  exists s, currentCategory (scan_step st tip) = Str s.
Proof.
  intros Hst. unfold scan_step. destruct (startsWith tip heading_marker).
  - destruct (str_match tip) as [m|] eqn:E; [|exact Hst].
    simpl. apply (str_match_group _ _ E).
  - destruct (truthy _ && _); exact Hst.
Qed.

(** [currentCategory] always holds a string: the group of the pattern takes
    part in every match, so [categoryMatch[1]] is never [undefined]. *)
Theorem current_category_is_a_string tips :
  exists s, currentCategory (scan tips) = Str s.
Proof.
  induction tips as [|tip tips IH] using rev_ind.
  - exists []. reflexivity.
  - rewrite scan_snoc. apply scan_step_current_Str, IH.
Qed.

(** The scan keeps the five keys of [categories], in their order, whatever
    the headings name. *)
Theorem categorize_keeps_the_five_keys tips :
  obj_keys (categorize tips) = category_names
  /\ obj_keys (categories (scan tips)) = category_names
  /\ length (renderTipCards tips) = 5%nat.
Proof.
  assert (H : obj_keys (categorize tips) = category_names).
  { rewrite categorize_pure. apply pure_scan_keys. }
  split; [exact H|]. split; [apply scan_keys|].
  unfold renderTipCards. rewrite length_map.
  unfold obj_keys in H. rewrite <- (length_map fst), H. reflexivity.
Qed.

Lemma NoDup_filter_bool {A} (f : A -> bool) (l : list A) :
  NoDup l -> NoDup (List.filter f l).
Proof.
  induction 1 as [|x l Hx Hl IH]; simpl; [constructor|].
  destruct (f x); [|exact IH]. constructor; [|exact IH].
  intros Hin. apply Hx. apply list_elem_of_In in Hin.
  apply filter_In in Hin as [Hin _]. apply list_elem_of_In, Hin.
Qed.

Lemma rendered_keys (f : jsstring -> list jsstring) (names : list jsstring) :
  map card_key (omap id (map render_entry (map (fun c => (c, f c)) names)))
  = List.filter (fun c => (0 <? length (f c))%nat) names.
Proof.
  induction names as [|c names IH]; simpl; [reflexivity|].
  destruct (f c) as [|x l] eqn:E; simpl; [exact IH|].
  f_equal. exact IH.
Qed.

(** The keys of the rendered cards are pairwise distinct, and there are at
    most five cards. *)
Theorem rendered_card_keys_distinct tips :
  NoDup (map card_key (rendered_cards tips))
  /\ (length (rendered_cards tips) <= 5)%nat.
Proof.
  assert (Hk : map card_key (rendered_cards tips)
               = List.filter (fun c => (0 <? length (bucket c tips))%nat)
                   category_names).
  { unfold rendered_cards, renderTipCards. rewrite categorize_names.
    apply rendered_keys. }
  split.
  - rewrite Hk. apply NoDup_filter_bool, category_names_NoDup.
  - rewrite <- (length_map card_key), Hk.
    etransitivity; [apply List.filter_length_le|]. reflexivity.
Qed.

(** What a rendered card shows. *)
Theorem rendered_card_contents tips k :
  k ∈ rendered_cards tips ->
  card_title k ∈ category_names
  /\ card_key k = card_title k
  /\ obj_get (card_title k) icons = Some (card_icon k)
  /\ card_icon k <> [55356; 57137]
  /\ card_markdown k = join [10; 10] (bucket (card_title k) tips)
  /\ card_count k = length (bucket (card_title k) tips)
  /\ (1 <= card_count k)%nat
  /\ (card_noun k = js "tip" <-> card_count k = 1%nat)
  /\ (card_noun k = js "tips" <-> card_count k <> 1%nat).
Proof.
  intros Hin. apply elem_of_rendered_cards in Hin as (c & Hc & Hk).
  unfold render_entry in Hk.
  destruct (bucket c tips) as [|x l] eqn:Hb; simpl in Hk; [discriminate|].
  injection Hk as <-. simpl. rewrite Hb.
  split; [exact Hc|]. split; [reflexivity|].
  assert (Hicon : obj_get c icons = Some (getCategoryIcon c)
                  /\ getCategoryIcon c <> [55356; 57137]).
  { unfold category_names in Hc.
    repeat (apply elem_of_cons in Hc as [->|Hc];
            [split; [reflexivity|discriminate]|]).
    inversion Hc. }
  destruct Hicon as [Hi Hd]. split; [exact Hi|]. split; [exact Hd|].
  split; [reflexivity|]. split; [reflexivity|]. split; [simpl; lia|].
  simpl. destruct l; simpl; split; split; intros H;
    try reflexivity; try discriminate; try lia; congruence.
Qed.

Lemma rendered_card_contents_witness :
  let tips := [js "## 1. Quick Wins"; js "Walk"; js "Cycle"] in
  let k := {| card_key := QuickWins; card_icon := [9889];
              card_title := QuickWins;
              card_markdown := js "Walk" ++ [10; 10] ++ js "Cycle";
              card_count := 2; card_noun := js "tips" |} in
  card_title k ∈ category_names
  /\ card_key k = card_title k
  /\ obj_get (card_title k) icons = Some (card_icon k)
  /\ card_icon k <> [55356; 57137]
  /\ card_markdown k = join [10; 10] (bucket (card_title k) tips)
  /\ card_count k = length (bucket (card_title k) tips)
  /\ (1 <= card_count k)%nat
  /\ (card_noun k = js "tip" <-> card_count k = 1%nat)
  /\ (card_noun k = js "tips" <-> card_count k <> 1%nat).
Proof.
  intros tips k. apply (rendered_card_contents tips k).
  vm_compute. left.
Defined.

(** ** How the scan composes *)

(** A category keeps its bucket over any further lines among which no
    heading names it, provided another category is current or the further
    lines start with a heading. *)
Theorem bucket_untouched_by_other_headings a b c :
  Forall (fun t => heading_name t <> Some (Str c)) b ->
  currentCategory (scan a) <> Str c
  \/ (exists h b', b = h :: b' /\ is_heading h = true) ->
  bucket c (a ++ b) = bucket c a.
Proof.
  intros Hb Hstart. rewrite !bucket_pure, pure_scan_app. f_equal.
  destruct Hstart as [Hcur|(h & b' & -> & Hh)].
  - apply pure_fold_frozen; [exact Hb|]. rewrite <- current_pure. exact Hcur.
  - simpl. apply is_heading_name in Hh as [v Hv].
    inversion Hb as [|? ? Hne Hb']; subst.
    rewrite (pure_step_heading _ _ _ Hv).
    rewrite pure_fold_frozen; [reflexivity|exact Hb'|simpl; congruence].
Qed.

Lemma bucket_untouched_witness :
  bucket QuickWins
    ([js "## 1. Quick Wins"; js "Walk"]
       ++ [js "## 2. Sustainable Living"; js "Compost"; js "## 3. Pets"])
  = bucket QuickWins [js "## 1. Quick Wins"; js "Walk"].
Proof.
  apply (bucket_untouched_by_other_headings
           [js "## 1. Quick Wins"; js "Walk"]
           [js "## 2. Sustainable Living"; js "Compost"; js "## 3. Pets"]
           QuickWins).
  - repeat constructor; vm_compute; discriminate.
  - right. eexists _, _. split; reflexivity.
Defined.

(** ** No line is counted twice *)

(** One line changes the bucket of the current category only, and makes it
    at most one line longer. *)
Lemma bucket_step pre tip c :
  (bucket c (pre ++ [tip]) = bucket c pre
   \/ (is_body tip = true /\ currentCategory (scan pre) = Str c))
  /\ (length (bucket c (pre ++ [tip])) <= S (length (bucket c pre)))%nat.
Proof.
  destruct (is_body tip) eqn:Hb.
  2:{ assert (H : bucket c (pre ++ [tip]) = bucket c pre).
      { rewrite !bucket_pure, pure_scan_snoc.
        rewrite pure_step_marker_categories; [reflexivity|].
        unfold is_body in Hb.
        destruct (startsWith tip heading_marker); [reflexivity|discriminate]. }
      rewrite H. split; [left; reflexivity|lia]. }
  destruct (recognized (currentCategory (scan pre))) eqn:Hr.
  2:{ assert (H : bucket c (pre ++ [tip]) = bucket c pre).
      { unfold bucket, categorize.
        rewrite scan_snoc, (scan_step_dropped _ _ Hb Hr). reflexivity. }
      rewrite H. split; [left; reflexivity|lia]. }
  destruct (current_origin _ Hr)
    as (c' & l1 & h & l2 & Hcur & Hc' & -> & Hh & Hl2 & Htips).
  destruct (decide (c' = c)) as [->|Hcc].
  - split; [right; auto|].
    rewrite current_pure in Hcur.
    rewrite !bucket_pure, pure_scan_snoc.
    rewrite (pure_step_body _ _ c Hb Hcur (category_name_nonempty _ Hc'))
      by (rewrite pure_scan_keys; exact Hc').
    simpl. rewrite obj_get_set_eq, Htips. simpl.
    rewrite (pure_scan_last_recognized _ _ _ _ Hh Hc' Hl2). simpl.
    destruct (body_after l2) as [|x b]; simpl; [lia|].
    rewrite obj_get_set_eq, length_app. simpl. lia.
  - assert (H : bucket c ((l1 ++ h :: l2) ++ [tip]) = bucket c (l1 ++ h :: l2)).
    { rewrite current_pure in Hcur.
      rewrite !bucket_pure, pure_scan_snoc.
      rewrite (pure_step_body _ _ c' Hb Hcur (category_name_nonempty _ Hc'))
        by (rewrite pure_scan_keys; exact Hc').
      simpl. rewrite obj_get_set_ne by exact Hcc. reflexivity. }
    rewrite H. split; [left; reflexivity|lia].
Qed.

Lemma sum_step (f g : jsstring -> nat) (c0 : jsstring) (names : list jsstring) :
  NoDup names ->
  (forall c, c ∈ names -> c <> c0 -> g c = f c) ->
  (g c0 <= S (f c0))%nat ->
  (sum_list (map g names) <= S (sum_list (map f names)))%nat
  /\ (c0 ∉ names -> sum_list (map g names) = sum_list (map f names)).
Proof.
  intros Hnd Hother Hc0. induction Hnd as [|c names Hc Hnd IH]; simpl.
  - split; [lia|reflexivity].
  - destruct IH as [IHle IHeq].
    { intros c' Hin. apply Hother. right. exact Hin. }
    destruct (decide (c = c0)) as [->|Hne].
    + rewrite (IHeq Hc). split; [lia|]. intros Hnot. destruct Hnot. left.
    + rewrite (Hother c) by (try left; exact Hne).
      split; [lia|]. intros Hnot. rewrite IHeq; [reflexivity|].
      intros Hin. apply Hnot. right. exact Hin.
Qed.

Lemma total_step pre tip :
  (sum_list (map (fun c => length (bucket c (pre ++ [tip]))) category_names)
   <= sum_list (map (fun c => length (bucket c pre)) category_names)
      + (if is_body tip then 1 else 0))%nat.
Proof.
  destruct (is_body tip) eqn:Hb.
  - destruct (currentCategory (scan pre)) as [|c0] eqn:Hcur.
    + rewrite Nat.add_1_r. apply Nat.le_le_succ_r, Nat.eq_le_incl.
      f_equal. apply map_ext. intros c.
      destruct (proj1 (bucket_step pre tip c)) as [->|[_ H]];
        [reflexivity|congruence].
    + rewrite Nat.add_1_r.
      apply (sum_step _ _ c0 category_names category_names_NoDup).
      * intros c _ Hne.
        destruct (proj1 (bucket_step pre tip c)) as [->|[_ H]];
          [reflexivity|congruence].
      * apply bucket_step.
  - rewrite Nat.add_0_r. apply Nat.eq_le_incl. f_equal. apply map_ext.
    intros c. destruct (proj1 (bucket_step pre tip c)) as [->|[H _]];
      [reflexivity|congruence].
Qed.

Lemma rendered_counts (f : jsstring -> list jsstring) (names : list jsstring) :
  sum_list
    (map card_count
       (omap id (map render_entry (map (fun c => (c, f c)) names))))
  = sum_list (map (fun c => length (f c)) names).
Proof.
  induction names as [|c names IH]; simpl; [reflexivity|].
  destruct (f c) as [|x l] eqn:E; simpl; [exact IH|].
  do 2 f_equal. exact IH.
Qed.

(** The counts shown on the cards add up to at most the number of body
    lines of the input. *)
Theorem card_counts_bounded_by_body_lines tips :
  (sum_list (map card_count (rendered_cards tips))
   <= length (List.filter is_body tips))%nat.
Proof.
  unfold rendered_cards, renderTipCards.
  rewrite categorize_names, rendered_counts.
  induction tips as [|tip tips IH] using rev_ind.
  - apply Nat.eq_le_incl. vm_compute. reflexivity.
  - etransitivity; [apply total_step|].
    rewrite List.filter_app, length_app.
    assert (Hone : length (List.filter is_body [tip])
                   = if is_body tip then 1%nat else 0%nat)
      by (simpl; destruct (is_body tip); reflexivity).
    rewrite Hone. destruct (is_body tip); lia.
Qed.

(** ** The store *)

Lemma NoDup_refs_obj_set (o : object ref) c v :
  NoDup (obj_keys o) ->
  NoDup (map snd o) ->
  (forall k r, (k, r) ∈ o -> r = v -> k = c) ->
  NoDup (map snd (obj_set c v o)).
Proof.
  intros Hk Hr Hal. induction o as [|[k' r'] o IH]; simpl.
  - repeat constructor. intros H; inversion H.
  - simpl in Hk, Hr. apply NoDup_cons in Hk as [Hk' Hk].
    apply NoDup_cons in Hr as [Hr' Hr].
    destruct (str_eqb c k') eqn:E; simpl.
    + apply str_eqb_eq in E as <-. constructor; [|exact Hr].
      intros Hin. apply list_elem_of_fmap in Hin as ([k r] & Hv & Hin).
      simpl in Hv. subst r.
      assert (k = c) as -> by (eapply Hal; [right; exact Hin|reflexivity]).
      apply Hk'. apply list_elem_of_fmap. exists (c, v). auto.
    + constructor.
      * intros Hin. apply list_elem_of_fmap in Hin as ([k r] & Hv & Hin).
        simpl in Hv. subst r.
        destruct (elem_of_obj_set _ _ _ _ Hin) as [[= -> ->]|Hold].
        -- apply str_eqb_neq in E. apply E. symmetry.
           eapply Hal; [left|reflexivity].
        -- apply Hr'. apply list_elem_of_fmap. exists (k, r'). auto.
      * apply IH; [exact Hk|exact Hr|].
        intros k r Hin. apply Hal. right. exact Hin.
Qed.

Lemma scan_step_heap_length st tip :
  length (heap (scan_step st tip))
  = (length (heap st) + if is_heading tip then 1 else 0)%nat.
Proof.
  unfold scan_step, is_heading. destruct (startsWith tip heading_marker); simpl.
  - destruct (str_match tip); simpl.
    + rewrite length_app. reflexivity.
    + lia.
  - destruct (truthy _ && _); simpl; [|lia].
    unfold array_push. rewrite length_alter. lia.
Qed.

(** No two categories share an array, every reference denotes an array of
    the store, the array of [currentTips] belongs to the current category
    or to none, and the scan allocates one array for each heading. *)
Theorem scan_store_invariant tips :
  NoDup (map snd (categories (scan tips)))
  /\ (forall k r, (k, r) ∈ categories (scan tips) ->
        (r < length (heap (scan tips)))%nat
        /\ (r = currentTips (scan tips) ->
            currentCategory (scan tips) = Str k))
  /\ (currentTips (scan tips) < length (heap (scan tips)))%nat
  /\ length (heap (scan tips))
     = (6 + length (List.filter is_heading tips))%nat.
Proof.
  pose proof (scan_sim tips) as Hsim.
  split; [|split; [|split]].
  - clear Hsim. induction tips as [|tip tips IH] using rev_ind.
    + apply (bool_decide_unpack _). vm_compute. reflexivity.
    + pose proof (scan_sim tips) as [_ _ _ Hkeys _ Hal].
      rewrite scan_snoc. unfold scan_step.
      destruct (startsWith tip heading_marker).
      * destruct (str_match tip); exact IH.
      * destruct (truthy _ && _) eqn:G; [|exact IH]. simpl.
        destruct (recognized_Str _ _ G) as (c & Hcur & _ & _).
        rewrite Hcur. simpl.
        apply NoDup_refs_obj_set; [exact Hkeys|exact IH|].
        intros k r Hin ->. specialize (Hal _ _ Hin eq_refl). congruence.
  - intros k r Hin. split.
    + apply (sim_bound _ _ Hsim k), Hin.
    + apply (sim_alias _ _ Hsim k), Hin.
  - eapply lookup_lt_Some, (sim_tips _ _ Hsim).
  - clear Hsim. induction tips as [|tip tips IH] using rev_ind.
    + reflexivity.
    + rewrite scan_snoc, scan_step_heap_length, IH.
      rewrite List.filter_app, length_app. simpl.
      destruct (is_heading tip); simpl; lia.
Qed.

(** ** Submissions *)

Lemma submit_cases net st :
  submit net st
  = if try_throws net
    then ({| location := location st; habits := habits st;
             tips := StringArray [];
             loading := false; error := Some error_message |},
          [PreventDefault; Post tips_url (location st) (habits st);
           ConsoleError match net with
                        | NetworkError => NetworkFailure
                        | Response status data =>
                            if ((200 <=? status) && (status <? 300))%Z
                            then TypeError else BadStatus status
                        end])
    else ({| location := location st; habits := habits st;
             tips := match net with
                     | Response _ (Body data_tips) => data_tips
                     | _ => StringArray []
                     end;
             loading := false; error := None |},
          [PreventDefault; Post tips_url (location st) (habits st)]).
Proof.
  destruct net as [|status data]; [reflexivity|].
  unfold submit, handleSubmit, mbind, handler_bind, try_catch_finally,
    axios_post, response_data_tips, emit, setLoading, setError, setTips,
    try_throws; simpl.
  destruct ((200 <=? status) && (status <? 300))%Z; [|reflexivity].
  destruct data; reflexivity.
Qed.

(** A request answered with a status in 200..299 and a body that is not
    null stores [response.data.tips] as it is, a list of strings or not,
    clears the error, ends loading and logs nothing; with a null body the
    read of [.tips] throws inside [try], so the generic message is set, the
    list stays empty and the TypeError is logged. *)
Theorem submit_success_stores_tips st status data :
  request_fails (Response status data) = false ->
  submit (Response status data) st
  = match data with
    | Body data_tips =>
        ({| location := location st; habits := habits st; tips := data_tips;
            loading := false; error := None |},
         [PreventDefault; Post tips_url (location st) (habits st)])
    | NullBody =>
        ({| location := location st; habits := habits st;
            tips := StringArray [];
            loading := false; error := Some error_message |},
         [PreventDefault; Post tips_url (location st) (habits st);
          ConsoleError TypeError])
    end.
Proof.
  intros H. rewrite submit_cases. simpl in *.
  apply negb_false_iff in H. rewrite H. destruct data; reflexivity.
Qed.

Lemma submit_success_witness :
  let st := {| location := js "Nairobi"; habits := js "I drive to work";
               tips := StringArray [js "old"]; loading := false;
               error := Some error_message |} in
  submit (Response 201 (Body (StringArray [js "## 1. Quick Wins"; js "Walk"])))
         st
  = ({| location := location st; habits := habits st;
        tips := StringArray [js "## 1. Quick Wins"; js "Walk"];
        loading := false; error := None |},
     [PreventDefault; Post tips_url (location st) (habits st)])
  /\ submit (Response 200 (Body Nullish)) st
     = ({| location := location st; habits := habits st; tips := Nullish;
           loading := false; error := None |},
        [PreventDefault; Post tips_url (location st) (habits st)])
  /\ submit (Response 200 NullBody) st
     = ({| location := location st; habits := habits st;
           tips := StringArray [];
           loading := false; error := Some error_message |},
        [PreventDefault; Post tips_url (location st) (habits st);
         ConsoleError TypeError]).
Proof.
  intros st. split; [|split].
  - apply (submit_success_stores_tips st 201
             (Body (StringArray [js "## 1. Quick Wins"; js "Walk"]))).
    reflexivity.
  - apply (submit_success_stores_tips st 200 (Body Nullish)). reflexivity.
  - apply (submit_success_stores_tips st 200 NullBody). reflexivity.
Defined.

(** Every run of the handler, whatever the transport answers and whatever
    the body of the answer holds, issues exactly one request, to the fixed
    address and with the two fields as typed last; it leaves the loading
    flag off and the fields untouched, and the state it leaves does not
    depend on the results, the error or the loading flag held before. *)
Theorem submit_sends_one_request net st :
  posts (snd (submit net st)) = [Post tips_url (location st) (habits st)]
  /\ loading (fst (submit net st)) = false
  /\ location (fst (submit net st)) = location st
  /\ habits (fst (submit net st)) = habits st
  /\ submit net st
     = submit net {| location := location st; habits := habits st;
                     tips := StringArray []; loading := false;
                     error := None |}
  /\ forall l h,
       posts (snd (submit net (onChange_habits h (onChange_location l st))))
       = [Post tips_url l h].
Proof.
  assert (Hposts : forall st',
    posts (snd (submit net st')) = [Post tips_url (location st') (habits st')]).
  { intros st'. rewrite submit_cases.
    destruct (try_throws net); reflexivity. }
  split; [apply Hposts|].
  rewrite !submit_cases. destruct (try_throws net); repeat split; auto.
  all: intros l h; apply (Hposts (onChange_habits h (onChange_location l st))).
Qed.

(** The render after a run of the handler. When the [try] block threw (the
    request failed, or the body was null) the page renders with the alert
    and without tips section. When it did not, the page is rendered from
    the stored [response.data.tips]: without alert, or not at all when the
    read of [tips.length], [tips.forEach] or [tip.startsWith] throws, as it
    does on a body without [tips]. Whenever the page renders, the submit
    button is enabled with its idle label, the inputs show what they
    showed, and the alert and the tips section are not shown together. *)
Theorem Home_after_submit net st :
  (forall v, Home (fst (submit net st)) = Normal v ->
     button_disabled v = false
     /\ button_spinner v = false
     /\ button_label v = js "Get Personalized Tips"
     /\ location_value v = location st
     /\ habits_value v = habits st
     /\ alert v = (if try_throws net then Some error_message else None)
     /\ (alert v = None \/ tips_section v = None))
  /\ (try_throws net = true ->
      exists v, Home (fst (submit net st)) = Normal v
                /\ alert v = Some error_message /\ tips_section v = None)
  /\ (forall status data_tips,
        net = Response status (Body data_tips) ->
        request_fails net = false ->
        Home (fst (submit net st))
        = match render_tips_section data_tips with
          | Normal section =>
              Normal {| location_value := location st;
                        habits_value := habits st;
                        button_disabled := false;
                        button_spinner := false;
                        button_label := js "Get Personalized Tips";
                        alert := None;
                        tips_section := section |}
          | Throw err => Throw err
          end)
  /\ (forall status,
        net = Response status (Body Nullish) ->
        request_fails net = false ->
        Home (fst (submit net st)) = Throw TypeError).
Proof.
  assert (Hbody : forall status data_tips,
    net = Response status (Body data_tips) ->
    request_fails net = false ->
    fst (submit net st)
    = {| location := location st; habits := habits st; tips := data_tips;
         loading := false; error := None |}).
  { intros status t -> H. rewrite (submit_success_stores_tips _ _ _ H).
    reflexivity. }
  split; [|split; [|split]].
  - intros v. rewrite submit_cases. destruct (try_throws net) eqn:Ht; simpl.
    + intros [= <-]. simpl. repeat split. right. reflexivity.
    + unfold Home. simpl.
      destruct (render_tips_section _) as [section|]; [|discriminate].
      intros [= <-]. simpl. repeat split. left. reflexivity.
  - intros Ht. rewrite submit_cases, Ht. eexists. split; [reflexivity|].
    split; reflexivity.
  - intros status t Hnet Hok. rewrite (Hbody _ _ Hnet Hok). reflexivity.
  - intros status Hnet Hok. rewrite (Hbody _ _ Hnet Hok). reflexivity.
Qed.

Lemma handleSubmit_split shown net st tr :
  handleSubmit shown net st tr
  = (before_await ;; request_and_settle shown) net st tr.
Proof. reflexivity. Qed.

(** While the request is awaited the submit button is disabled and shows
    the spinner with its label, and neither the alert nor the tips section
    of an earlier submission is shown. *)
Theorem Home_while_pending net st tr :
  exists pending,
    before_await net st tr = (Normal tt, pending, tr ++ [PreventDefault])
    /\ handleSubmit st net st tr
       = request_and_settle st net pending (tr ++ [PreventDefault])
    /\ Home pending
       = Normal {| location_value := location st;
                   habits_value := habits st;
                   button_disabled := true;
                   button_spinner := true;
                   button_label := js "Generating Tips...";
                   alert := None;
                   tips_section := None |}.
Proof.
  eexists. split; [reflexivity|]. split; reflexivity.
Qed.

(** The tips section is shown as soon as the result list is not empty;
    when no heading of the list names a category it is shown with five
    empty children, that is, without any card. *)
Theorem Home_section_without_cards st l :
  tips st = StringArray l ->
  l <> [] ->
  Forall (fun t => forall c, c ∈ category_names ->
                             heading_name t <> Some (Str c)) l ->
  (exists v, Home st = Normal v
             /\ tips_section v = Some [None; None; None; None; None])
  /\ rendered_cards l = [].
Proof.
  intros Htips Hne Hall.
  assert (Hr : renderTipCards l = [None; None; None; None; None]).
  { unfold renderTipCards. rewrite categorize_pure.
    rewrite (proj2 (no_recognized_heading _ Hall)). reflexivity. }
  split.
  - unfold Home. rewrite Htips. simpl. destruct l; [congruence|]. simpl.
    eexists. split; [reflexivity|]. simpl. rewrite Hr. reflexivity.
  - unfold rendered_cards. rewrite Hr. reflexivity.
Qed.

Lemma Home_section_witness :
  let l := [js "Just a stray line"; js "## 1. Pets"; js "Walk"] in
  let st := {| location := js "Nairobi"; habits := js "I drive to work";
               tips := StringArray l; loading := false; error := None |} in
  (exists v, Home st = Normal v
             /\ tips_section v = Some [None; None; None; None; None])
  /\ rendered_cards l = [].
Proof.
  intros l st. apply (Home_section_without_cards st l).
  - reflexivity.
  - discriminate.
  - repeat constructor; intros c Hc; vm_compute; intros [= <-];
      vm_compute in Hc;
      repeat (apply elem_of_cons in Hc as [Hc|Hc]; [discriminate Hc|]);
      inversion Hc.
Defined.
